(** * Automaker feature orchestration: work-item store and JSONL process runner

    A shallow embedding of

    - [app/electron/services/feature-loader.js]  (class [FeatureLoader]) and
    - [libs/platform/src/subprocess.ts]          (generator [spawnJSONLProcess])

    together with the properties of the orchestration core that the
    specification states about them.

    Modelling conventions.

    - JavaScript values that come out of [JSON.parse] are the inductive type
      [json]; a property read that finds nothing gives [undefined], which is
      [None] in [jsval := option json].  Objects are finite maps from
      property names to values (property order is not observable by the
      code below).  Numbers are integers: the code never computes with a
      number read from a file, it only tests it for truthiness.
    - A file holds text.  The code only ever looks at a file through
      [JSON.parse] and only ever produces text with [JSON.stringify], so a
      file's text is kept up to that view ([content]): either text that
      [JSON.parse] rejects, or text that parses to a given value.
    - File system effects and exceptions are explicit: a computation is a
      function from the state of the project directory to an [outcome] and
      the next state.  Every [fs.writeFile] that succeeds is also appended
      to a log, so that "no write happened" can be told apart from "the
      same text was written again".
    - [Date.now()] is read from an oracle [now] indexed by the position of
      the array element whose callback reads the clock.
    - A child process is what reaches the code that runs it: the
      sequence of events (lines and end of stdout, text on stderr, [exit],
      [error]) in the order in which they are delivered.  A listener
      hears only the events delivered after it was installed.
    - [console.log] / [console.warn] / [console.error] calls are not
      modelled. *)

From stdpp Require Import gmap strings list fin_maps pretty.

Set Warnings "-register-all".
Open Scope string_scope.

(** ** JavaScript values *)

Inductive json :=
| JNull
| JBool (b : bool)
| JNum (z : Z)
| JStr (s : string)
| JArr (l : list json)
| JObj (m : gmap string json).

(** The result of a property read or an optional argument: [None] is
    [undefined]. *)
Definition jsval := option json.

Inductive exn :=
| TypeError (msg : string)
| SyntaxError (msg : string)
| IOError (msg : string)
| Error (msg : string).

(** Evaluation of an expression that may throw. *)
Inductive outcome (A : Type) :=
| Return (a : A)
| Throw (e : exn).
Arguments Return {A} a.
Arguments Throw {A} e.

#[global] Instance outcome_ret : MRet outcome := λ A a, Return a.
#[global] Instance outcome_bind : MBind outcome := λ A B f x,
  match x with
  | Return a => f a
  | Throw e => Throw e
  end.

(** [ToBoolean]. *)
Definition truthy (v : jsval) : bool :=
  match v with
  | None => false
  | Some JNull => false
  | Some (JBool b) => b
  | Some (JNum z) => negb (z =? 0)%Z
  | Some (JStr s) => negb (String.eqb s "")
  | Some (JArr _) => true
  | Some (JObj _) => true
  end.

(** [v.k] for the property names read in this development
    ([id], [status], [category], ...): none of them is an array index,
    [length], or a member of a built-in prototype, so on a primitive or an
    array the read is [undefined]; on [null] it throws. *)
Definition get_prop (v : json) (k : string) : outcome jsval :=
  match v with
  | JNull => Throw (TypeError ("Cannot read properties of null (reading '" +:+ k +:+ "')"))
  | JObj m => Return (m !! k)
  | _ => Return None
  end.

(** [x === s] for a string [s]. *)
Definition strict_eq_str (x : jsval) (s : string) : bool :=
  match x with
  | Some (JStr s') => String.eqb s' s
  | _ => false
  end.

(** Own enumerable properties copied by an object spread [{...v}]:
    those of an object, the indexed elements of an array or of a string,
    nothing for [null], booleans and numbers. *)
Definition indexed {A} (f : A → json) (l : list A) : gmap string json :=
  list_to_map (imap (λ i x, (pretty i, f x)) l).

Definition spread (v : json) : gmap string json :=
  match v with
  | JObj m => m
  | JArr l => indexed id l
  | JStr s => indexed (λ c, JStr (String c "")) (String.list_ascii_of_string s)
  | _ => ∅
  end.

(** [Array.prototype.find] with a callback that may throw: the first
    position (and element) on which the callback is true. *)
Fixpoint Array_find_from (p : json → outcome bool) (i : nat) (l : list json)
  : outcome (option (nat * json)) :=
  match l with
  | [] => Return None
  | f :: l' =>
      b ← p f;
      if b : bool then Return (Some (i, f)) else Array_find_from p (S i) l'
  end.

Definition Array_find (p : json → outcome bool) (l : list json)
  : outcome (option (nat * json)) :=
  Array_find_from p 0 l.

(** [Array.prototype.map] with a callback [(element, index)] that may
    throw. *)
Fixpoint Array_map_from {B} (g : nat → json → outcome B) (i : nat) (l : list json)
  : outcome (list B) :=
  match l with
  | [] => Return []
  | f :: l' =>
      y ← g i f;
      ys ← Array_map_from g (S i) l';
      Return (y :: ys)
  end.

Definition Array_map {B} (g : nat → json → outcome B) (l : list json)
  : outcome (list B) :=
  Array_map_from g 0 l.

(** ** Files *)

(** What a file contains, up to [JSON.parse]. *)
Inductive content :=
| Garbage (raw : string)   (* text that is not JSON *)
| Doc (v : json).          (* text that parses to [v] *)

Definition JSON_parse (c : content) : outcome json :=
  match c with
  | Garbage raw => Throw (SyntaxError "Unexpected token")
  | Doc v => Return v
  end.

(** [JSON.stringify] of an object whose properties may hold [undefined]:
    such properties are left out. *)
Definition stringify_object (o : gmap string jsval) : json :=
  JObj (omap id o).

(** [JSON.stringify(toSave, null, 2)] for an array of such objects. *)
Definition JSON_stringify (toSave : list (gmap string jsval)) : content :=
  Doc (JArr (stringify_object <$> toSave)).

Inductive path := featuresPath | backupPath.

#[global] Instance path_eq_dec : EqDecision path.
Proof. solve_decision. Defined.

(** A file: its content when it can be read, and whether it can be
    written. *)
Record file := File { data : option content; writable : bool }.

(** The two files of a project's [.automaker] directory and the log of
    successful writes, oldest first. *)
Record world := World {
  feature_list : file;          (* .automaker/feature_list.json *)
  feature_list_backup : file;   (* .automaker/feature_list.backup.json *)
  writes : list (path * content)
}.

Definition file_at (p : path) (w : world) : file :=
  match p with
  | featuresPath => feature_list w
  | backupPath => feature_list_backup w
  end.

Definition store (p : path) (c : content) (w : world) : world :=
  match p with
  | featuresPath =>
      World (File (Some c) true) (feature_list_backup w) (writes w ++ [(p, c)])
  | backupPath =>
      World (feature_list w) (File (Some c) true) (writes w ++ [(p, c)])
  end.

(** ** Computations over the project directory *)

Record M (A : Type) := MkM { run : world → outcome A * world }.
Arguments MkM {A} run.
Arguments run {A} m w.

#[global] Instance M_ret : MRet M := λ A a, MkM (λ w, (Return a, w)).
#[global] Instance M_bind : MBind M := λ A B f m,
  MkM (λ w,
    match run m w with
    | (Return a, w') => run (f a) w'
    | (Throw e, w') => (Throw e, w')
    end).

Definition lift {A} (o : outcome A) : M A := MkM (λ w, (o, w)).

Definition throw {A} (e : exn) : M A := MkM (λ w, (Throw e, w)).

(** [try { body } catch (e) { handler(e) }]. *)
Definition try_catch {A} (body : M A) (handler : exn → M A) : M A :=
  MkM (λ w,
    match run body w with
    | (Return a, w') => (Return a, w')
    | (Throw e, w') => run (handler e) w'
    end).

(** [await fs.readFile(p, "utf-8")]. *)
Definition readFile (p : path) : M content :=
  MkM (λ w,
    match data (file_at p w) with
    | Some c => (Return c, w)
    | None => (Throw (IOError "ENOENT: no such file or directory"), w)
    end).

(** [await fs.writeFile(p, c, "utf-8")]. *)
Definition writeFile (p : path) (c : content) : M unit :=
  MkM (λ w,
    if writable (file_at p w)
    then (Return tt, store p c w)
    else (Throw (IOError "EACCES: permission denied"), w)).

(** ** [class FeatureLoader]  (feature-loader.js) *)

Module FeatureLoader.

(** The callback of [features.map] in [loadFeatures]:
    [{ ...f, id: f.id || `feature-${index}-${Date.now()}` }]. *)
Definition with_id (now : nat → Z) (index : nat) (f : json) : outcome json :=
  let copy := spread f in
  fid ← get_prop f "id";
  let id' :=
    match fid with
    | Some j => if truthy fid then j
                else JStr ("feature-" +:+ pretty index +:+ "-" +:+ pretty (now index))
    | None => JStr ("feature-" +:+ pretty index +:+ "-" +:+ pretty (now index))
    end in
  Return (JObj (<["id" := id']> copy)).

(** [features.map(...)] on the value that [JSON.parse] returned: calling
    [map] on anything but an array is a [TypeError]. *)
Definition as_array (v : json) : outcome (list json) :=
  match v with
  | JArr l => Return l
  | _ => Throw (TypeError "features.map is not a function")
  end.

(** [loadFeatures(projectPath)], lines 11-31. *)
Definition loadFeatures (now : nat → Z) : M (list json) :=
  try_catch
    (content ← readFile featuresPath;
     lift (features ← JSON_parse content;
           elements ← as_array features;
           Array_map (with_id now) elements))
    (λ _, mret []).

(** Lines 55-61: copy the feature list to the backup file; any failure
    is swallowed. *)
Definition create_backup : M unit :=
  try_catch
    (originalContent ← readFile featuresPath;
     writeFile backupPath originalContent)
    (λ _, mret tt).

(** Lines 70-85: when nothing was loaded, take the records of the backup
    file, if it holds a non-empty array, as the working set. *)
Definition restore_from_backup (features : list json) : M (list json) :=
  if decide (length features = 0) then
    try_catch
      (backupContent ← readFile backupPath;
       backupFeatures ← lift (JSON_parse backupContent);
       match backupFeatures with
       | JArr l => if decide (0 < length l) then mret l else mret features
       | _ => mret features
       end)
      (λ _, mret features)
  else mret features.

(** The callback [(f) => f.id === featureId]. *)
Definition has_id (featureId : string) (f : json) : outcome bool :=
  fid ← get_prop f "id";
  Return (strict_eq_str fid featureId).

(** Assignment [feature.k = v] and [delete feature.k] on the record that
    [find] returned (always an object: its [id] is a string). *)
Definition on_object (g : gmap string json → gmap string json) (feature : json)
  : outcome json :=
  match feature with
  | JObj m => Return (JObj (g m))
  | _ => Throw (TypeError "Cannot create property on a primitive value")
  end.

(** Lines 94-108: the status patch. *)
Definition apply_status (status : string) (summary error : option string)
  (m : gmap string json) : gmap string json :=
  let m1 := <["status" := JStr status]> m in
  let m2 := match summary with
            | Some s => if truthy (Some (JStr s)) then <["summary" := JStr s]> m1 else m1
            | None => m1
            end in
  match error with
  | Some e => if truthy (Some (JStr e)) then <["error" := JStr e]> m2
              else delete "error" m2
  | None => delete "error" m2
  end.

(** The fields every saved record is given, and those copied only when
    they are not [undefined]. *)
Definition required_fields : list string :=
  ["id"; "category"; "description"; "steps"; "status"].

Definition optional_fields : list string :=
  ["skipTests"; "images"; "imagePaths"; "startedAt"; "summary"; "model";
   "thinkingLevel"; "error"; "worktreePath"; "branchName"].

Fixpoint copy_fields (always : bool) (f : json) (ks : list string)
  (featureData : gmap string jsval) : outcome (gmap string jsval) :=
  match ks with
  | [] => Return featureData
  | k :: ks' =>
      v ← get_prop f k;
      copy_fields always f ks'
        (if always then <[k := v]> featureData
         else match v with
              | Some _ => <[k := v]> featureData
              | None => featureData
              end)
  end.

(** The callback of [features.map] that builds [toSave], lines 111-152
    (and 212-231). *)
Definition featureData (f : json) : outcome (gmap string jsval) :=
  base ← copy_fields true f required_fields ∅;
  copy_fields false f optional_fields base.

(** Lines 154-159: the final validation and the write. *)
Definition empty_save_error : exn :=
  Error "CRITICAL: Attempted to save empty feature list - aborting to prevent data loss".

Definition save (toSave : list (gmap string jsval)) : M unit :=
  if decide (length toSave = 0) then throw empty_save_error
  else writeFile featuresPath (JSON_stringify toSave).

(** [updateFeatureStatus(featureId, status, projectPath, summary, error)],
    lines 41-162.  The test [Array.isArray(features)] of line 66 is not
    represented: [loadFeatures] returns an array on every path. *)
Definition updateFeatureStatus (now : nat → Z) (featureId status : string)
  (summary error : option string) : M unit :=
  _ ← create_backup;
  loaded ← loadFeatures now;
  features ← restore_from_backup loaded;
  found ← lift (Array_find (has_id featureId) features);
  match found with
  | None => mret tt
  | Some (i, feature) =>
      feature' ← lift (on_object (apply_status status summary error) feature);
      let features' := <[i := feature']> features in
      toSave ← lift (Array_map (λ _, featureData) features');
      save toSave
  end.

(** [selectNextFeature(features)], lines 168-172. *)
Definition eligible (f : json) : outcome bool :=
  st ← get_prop f "status";
  Return (negb (strict_eq_str st "verified") && negb (strict_eq_str st "waiting_approval")).

Definition selectNextFeature (features : list json) : outcome jsval :=
  found ← Array_find eligible features;
  Return (option_map snd found).

(** A parameter documented as [{string|null}]. *)
Definition of_nullable (s : option string) : json :=
  match s with
  | Some s => JStr s
  | None => JNull
  end.

(** Lines 202-209: set or clear the worktree information. *)
Definition apply_worktree (worktreePath branchName : option string)
  (m : gmap string json) : gmap string json :=
  if truthy (Some (of_nullable worktreePath)) then
    <["branchName" := of_nullable branchName]>
      (<["worktreePath" := of_nullable worktreePath]> m)
  else delete "branchName" (delete "worktreePath" m).

(** [updateFeatureWorktree(featureId, projectPath, worktreePath, branchName)],
    lines 181-235. *)
Definition updateFeatureWorktree (now : nat → Z) (featureId : string)
  (worktreePath branchName : option string) : M unit :=
  features ← loadFeatures now;
  if decide (length features = 0) then mret tt
  else
    found ← lift (Array_find (has_id featureId) features);
    match found with
    | None => mret tt
    | Some (i, feature) =>
        feature' ← lift (on_object (apply_worktree worktreePath branchName) feature);
        let features' := <[i := feature']> features in
        toSave ← lift (Array_map (λ _, featureData) features');
        writeFile featuresPath (JSON_stringify toSave)
    end.

End FeatureLoader.

(** ** [spawnJSONLProcess]  (subprocess.ts) *)

Module Subprocess.

(** The records the generator yields are JSON values; the synthetic ones
    are [{ type: "error", error: msg }]. *)
Definition error_record (msg : string) : json :=
  JObj (<["type" := JStr "error"]> (<["error" := JStr msg]> ∅)).

Definition code (c : Ascii.ascii) : N := Ascii.N_of_ascii c.

(** One-byte white space and line terminators of ECMAScript:
    TAB, LF, VT, FF, CR, SP. *)
Definition ws1 (c : Ascii.ascii) : bool :=
  ((9 <=? code c) && (code c <=? 13) || (code c =? 32))%N.

(** U+00A0 in UTF-8. *)
Definition ws2 (c1 c2 : Ascii.ascii) : bool :=
  ((code c1 =? 194) && (code c2 =? 160))%N.

(** U+1680, U+2000..U+200A, U+2028, U+2029, U+202F, U+205F, U+3000 and
    U+FEFF in UTF-8. *)
Definition ws3 (c1 c2 c3 : Ascii.ascii) : bool :=
  let '(a, b, c) := (code c1, code c2, code c3) in
  ((a =? 225) && (b =? 154) && (c =? 128)
   || (a =? 226) && (b =? 128) && ((128 <=? c) && (c <=? 138) || (c =? 168) || (c =? 169) || (c =? 175))
   || (a =? 226) && (b =? 129) && (c =? 159)
   || (a =? 227) && (b =? 128) && (c =? 128)
   || (a =? 239) && (b =? 187) && (c =? 191))%N.

(** [!line.trim()]: the line consists of white space only. *)
Fixpoint is_blank (line : string) : bool :=
  match line with
  | EmptyString => true
  | String c1 r1 =>
      if ws1 c1 then is_blank r1
      else match r1 with
           | String c2 r2 =>
               if ws2 c1 c2 then is_blank r2
               else match r2 with
                    | String c3 r3 => if ws3 c1 c2 c3 then is_blank r3 else false
                    | EmptyString => false
                    end
           | EmptyString => false
           end
  end.

Section Reader.

(** [JSON.parse] on the text of a line: [None] when it throws. *)
Variable JSON_parse_line : string → option json.

(** The body of the [for await (const line of rl)] loop, lines 96-115:
    the records one line contributes. *)
Definition on_line (line : string) : list json :=
  if is_blank line then []
  else match JSON_parse_line line with
       | Some parsed => [parsed]
       | None => [error_record ("Failed to parse output: " +:+ line)]
       end.

Fixpoint read_lines (lines : list string) : list json :=
  match lines with
  | [] => []
  | line :: rest => (on_line line ++ read_lines rest)%list
  end.

(** Lines 139-147: the record for a failed exit. *)
Definition on_exit (stderrOutput : string) (exitCode : option Z) : list json :=
  match exitCode with
  | Some c =>
      if negb (c =? 0)%Z then
        [error_record (if negb (String.eqb stderrOutput "") then stderrOutput
                       else "Process exited with code " +:+ pretty c)]
      else []
  | None => []
  end.

(** What happens around the generator, in the order in which its code
    and its listeners meet it: the read loop runs its body for a line,
    ends, or throws; the stderr listener receives a chunk; the child
    emits [exit] or [error].  The idle timeout and the abort signal only
    kill the child, which shows as an [exit] with code [null]. *)
Inductive stream_event :=
| StdoutLine (line : string)       (* the body of [for await (const line of rl)] *)
| StdoutClosed                     (* the loop ends: stdout is drained; or there
                                      is no stdout to read, line 89 *)
| StdoutFailed (e : exn)           (* the loop throws: a read error *)
| StderrText (chunk : string)      (* childProcess.stderr 'data' *)
| ChildExited (code : option Z)    (* childProcess 'exit' *)
| ChildFailed (e : exn).           (* childProcess 'error' *)

(** How the stream stands for its consumer: ended normally, ended by an
    exception of the generator, cut short by an ['error'] event that no
    listener handles, or not ended. *)
Inductive completion :=
| Finished
| Failed (e : exn)
| Unhandled (e : exn)
| Pending.

(** Where the generator is: in the read loop (lines 95-123), waiting on
    the promise of lines 127-137, or done. *)
Inductive phase := Reading | Waiting | Ended (c : completion).

Record generator := Generator {
  yielded : list json;
  stderrOutput : string;
  at_phase : phase
}.

(** One event.  The listeners for [exit] and [error] are installed only
    when the read loop has ended (lines 127-137): before that an [exit]
    finds no listener and is lost, and an [error] is an unhandled
    ['error'] event.  Once they are installed, [exit] resolves the
    promise with its code and [error] resolves it with [null]. *)
Definition on_stream_event (g : generator) (ev : stream_event) : generator :=
  match at_phase g with
  | Ended _ => g
  | Reading =>
      match ev with
      | StdoutLine line =>
          Generator (yielded g ++ on_line line)%list (stderrOutput g) Reading
      | StdoutClosed => Generator (yielded g) (stderrOutput g) Waiting
      | StdoutFailed e => Generator (yielded g) (stderrOutput g) (Ended (Failed e))
      | StderrText chunk =>
          Generator (yielded g) (stderrOutput g +:+ chunk) Reading
      | ChildExited _ => g
      | ChildFailed e => Generator (yielded g) (stderrOutput g) (Ended (Unhandled e))
      end
  | Waiting =>
      match ev with
      | StdoutLine _ | StdoutClosed | StdoutFailed _ => g
      | StderrText chunk =>
          Generator (yielded g) (stderrOutput g +:+ chunk) Waiting
      | ChildExited code =>
          Generator (yielded g ++ on_exit (stderrOutput g) code)%list (stderrOutput g)
                    (Ended Finished)
      | ChildFailed _ =>
          Generator (yielded g ++ on_exit (stderrOutput g) None)%list (stderrOutput g)
                    (Ended Finished)
      end
  end.

(** [spawnJSONLProcess(options)]: the records yielded, in order, and how
    the stream stands after the given events. *)
Definition spawnJSONLProcess (events : list stream_event) : list json * completion :=
  let g := foldl on_stream_event (Generator [] "" Reading) events in
  (yielded g,
   match at_phase g with
   | Ended c => c
   | Reading | Waiting => Pending
   end).

End Reader.

(** The lines [readline] makes of a text: a line ends at LF, CR LF or CR;
    what follows the last line end is a line when it is not empty. *)
Fixpoint readline_from (current : string) (text : string) : list string :=
  match text with
  | EmptyString => if String.eqb current "" then [] else [current]
  | String c rest =>
      if (code c =? 10)%N then current :: readline_from "" rest
      else if (code c =? 13)%N then
        match rest with
        | String c' rest' =>
            if (code c' =? 10)%N then current :: readline_from "" rest'
            else current :: readline_from "" rest
        | EmptyString => [current]
        end
      else readline_from (current +:+ String c "") rest
  end.

Definition readline (text : string) : list string := readline_from "" text.

(** [spawnProcess(options)], lines 158-206.  The promise it returns is
    settled by the listeners the function installs; what the child does
    is the sequence of events those listeners receive, in the order the
    event loop delivers them. *)
Record SubprocessResult := Result {
  stdout : string;
  stderr : string;
  exitCode : option Z
}.

Inductive event :=
| StdoutData (chunk : string)     (* childProcess.stdout 'data' *)
| StderrData (chunk : string)     (* childProcess.stderr 'data' *)
| Abort                           (* abortController.signal 'abort' *)
| Exit (code : option Z)          (* childProcess 'exit' *)
| ProcessError (e : exn).         (* childProcess 'error' *)

Inductive settlement :=
| Resolved (r : SubprocessResult)
| Rejected (e : exn).

(** The variables [stdout] and [stderr] of the closure, and the state of
    the promise ([None]: pending). *)
Record collector := Collector {
  collected_stdout : string;
  collected_stderr : string;
  promise : option settlement
}.

(** [resolve] and [reject] have no effect on a promise that is settled. *)
Definition settle (s : settlement) (st : collector) : collector :=
  match promise st with
  | Some _ => st
  | None => Collector (collected_stdout st) (collected_stderr st) (Some s)
  end.

(** What one event does.  The abort listener is installed only when an
    [abortController] was given. *)
Definition on_event (hasAbortController : bool) (st : collector) (ev : event)
  : collector :=
  match ev with
  | StdoutData chunk =>
      Collector (collected_stdout st +:+ chunk) (collected_stderr st) (promise st)
  | StderrData chunk =>
      Collector (collected_stdout st) (collected_stderr st +:+ chunk) (promise st)
  | Abort =>
      if hasAbortController then settle (Rejected (Error "Process aborted")) st
      else st
  | Exit code =>
      settle (Resolved (Result (collected_stdout st) (collected_stderr st) code)) st
  | ProcessError e => settle (Rejected e) st
  end.

Definition spawnProcess (hasAbortController : bool) (events : list event)
  : option settlement :=
  promise (foldl (on_event hasAbortController) (Collector "" "" None) events).

End Subprocess.

Import FeatureLoader Subprocess.

(** * Properties *)

(** ** What the stages compute *)

(** The properties of a value as [get_prop] reads them off anything but
    [null]. *)
Definition own_props (f : json) : gmap string json :=
  match f with
  | JObj m => m
  | _ => ∅
  end.

Definition props (f : json) (k : string) : jsval := own_props f !! k.

(** The collection [loadFeatures] returns for a given feature-list file. *)
Definition loaded (now : nat → Z) (fl : file) : list json :=
  match data fl with
  | Some c =>
      match JSON_parse c ≫= λ features, as_array features ≫= Array_map (with_id now) with
      | Return items => items
      | Throw _ => []
      end
  | None => []
  end.

(** The project directory after [create_backup]. *)
Definition backed_up (w : world) : world :=
  match data (feature_list w) with
  | Some c => if writable (feature_list_backup w) then store backupPath c w else w
  | None => w
  end.

(** The working set after [restore_from_backup]. *)
Definition working_set (features : list json) (w : world) : list json :=
  match features, data (feature_list_backup w) with
  | [], Some (Doc (JArr (b :: bs))) => b :: bs
  | _, _ => features
  end.

(** The fields a saved record can have. *)
Definition canonical_fields : list string := required_fields ++ optional_fields.

(** What [JSON.stringify] writes for a record of the working set. *)
Definition saved (f : json) : gmap string json :=
  filter (λ kv, kv.1 ∈ canonical_fields) (own_props f).

(** The id [loadFeatures] gives to the record at position [index]. *)
Definition synthesized_id (now : nat → Z) (index : nat) : json :=
  JStr ("feature-" +:+ pretty index +:+ "-" +:+ pretty (now index)).

Definition ensured_id (now : nat → Z) (index : nat) (f : json) : json :=
  match props f "id" with
  | Some j => if truthy (Some j) then j else synthesized_id now index
  | None => synthesized_id now index
  end.

(** A property that is there with a value other than [null]. *)
Definition non_null (v : jsval) : Prop := ∃ j, v = Some j ∧ j ≠ JNull.

(** A work item the scheduler may pick: its status is neither
    [verified] nor [waiting_approval]. *)
Definition selectable (m : gmap string json) : Prop :=
  m !! "status" ≠ Some (JStr "verified")
  ∧ m !! "status" ≠ Some (JStr "waiting_approval").

Definition with_status (s : string) : gmap string json := {[ "status" := JStr s ]}.

(** The entries [create_backup] adds to the write log. *)
Definition backup_writes (w : world) : list (path * content) :=
  match data (feature_list w) with
  | Some c => if writable (feature_list_backup w) then [(backupPath, c)] else []
  | None => []
  end.

(** A well-formed work item, and the clock of the examples. *)
Definition work_item (id status : string) : gmap string json :=
  list_to_map [("id", JStr id); ("category", JStr "core");
               ("description", JStr "a feature"); ("steps", JArr [JStr "step 1"]);
               ("status", JStr status)].

Definition clock (t : Z) : nat → Z := λ _, t.

Definition on_disk (features backup : option content) : world :=
  World (File features true) (File backup true) [].

(** ** Examples and a parser for them *)

(** A parser for the JSON texts whose numbers are integer literals and
    whose strings have no [\u] escape; it rejects every other text.  It
    stands for [JSON.parse] in the examples. *)
Module JsonText.

Definition at_code (c : Ascii.ascii) (n : N) : bool := (code c =? n)%N.

Definition json_ws (c : Ascii.ascii) : bool :=
  at_code c 32 || at_code c 9 || at_code c 10 || at_code c 13.

Fixpoint skip_ws (s : string) : string :=
  match s with
  | String c r => if json_ws c then skip_ws r else s
  | EmptyString => s
  end.

Fixpoint strip_prefix (p s : string) : option string :=
  match p, s with
  | EmptyString, _ => Some s
  | String a p', String b s' => if Ascii.eqb a b then strip_prefix p' s' else None
  | _, _ => None
  end.

Definition is_digit (c : Ascii.ascii) : bool := ((48 <=? code c) && (code c <=? 57))%N.

Fixpoint digits (s : string) (acc : N) : N * string :=
  match s with
  | String c r => if is_digit c then digits r (10 * acc + (code c - 48))%N else (acc, s)
  | EmptyString => (acc, s)
  end.

Definition integer_ends (s : string) : bool :=
  match s with
  | String c _ => negb (at_code c 46 || at_code c 101 || at_code c 69)
  | EmptyString => true
  end.

Definition parse_number (s : string) : option (json * string) :=
  let '(negative, s1) :=
    match s with
    | String c r => if at_code c 45 then (true, r) else (false, s)
    | EmptyString => (false, s)
    end in
  match s1 with
  | String c r =>
      if is_digit c then
        let '(n, rest) := if at_code c 48 then (0%N, r) else digits r (code c - 48)%N in
        if integer_ends rest
        then Some (JNum (if negative : bool then - Z.of_N n else Z.of_N n), rest)
        else None
      else None
  | EmptyString => None
  end.

Definition unescape (c : Ascii.ascii) : option Ascii.ascii :=
  if at_code c 34 || at_code c 92 || at_code c 47 then Some c
  else if at_code c 98 then Some (Ascii.ascii_of_nat 8)
  else if at_code c 102 then Some (Ascii.ascii_of_nat 12)
  else if at_code c 110 then Some (Ascii.ascii_of_nat 10)
  else if at_code c 114 then Some (Ascii.ascii_of_nat 13)
  else if at_code c 116 then Some (Ascii.ascii_of_nat 9)
  else None.

(** After the opening quote: the characters up to the closing one. *)
Fixpoint parse_string (s acc : string) : option (string * string) :=
  match s with
  | EmptyString => None
  | String c r =>
      if at_code c 34 then Some (acc, r)
      else if at_code c 92 then
        match r with
        | String e r' =>
            match unescape e with
            | Some x => parse_string r' (acc +:+ String x EmptyString)
            | None => None
            end
        | EmptyString => None
        end
      else if (code c <? 32)%N then None
      else parse_string r (acc +:+ String c EmptyString)
  end.

Fixpoint parse_value (fuel : nat) (s : string) : option (json * string) :=
  match fuel with
  | O => None
  | S fuel' =>
      match skip_ws s with
      | EmptyString => None
      | String c r =>
          if at_code c 123 then
            match skip_ws r with
            | String c' r' => if at_code c' 125 then Some (JObj ∅, r')
                              else parse_members fuel' (skip_ws r) ∅
            | EmptyString => None
            end
          else if at_code c 91 then
            match skip_ws r with
            | String c' r' => if at_code c' 93 then Some (JArr [], r')
                              else parse_elements fuel' r []
            | EmptyString => None
            end
          else if at_code c 34 then
            match parse_string r EmptyString with
            | Some (str, rest) => Some (JStr str, rest)
            | None => None
            end
          else if at_code c 116 then option_map (pair (JBool true)) (strip_prefix "rue" r)
          else if at_code c 102 then option_map (pair (JBool false)) (strip_prefix "alse" r)
          else if at_code c 110 then option_map (pair JNull) (strip_prefix "ull" r)
          else parse_number (String c r)
      end
  end
with parse_elements (fuel : nat) (s : string) (acc : list json) : option (json * string) :=
  match fuel with
  | O => None
  | S fuel' =>
      match parse_value fuel' s with
      | Some (v, rest) =>
          match skip_ws rest with
          | String c r =>
              if at_code c 44 then parse_elements fuel' r (acc ++ [v])%list
              else if at_code c 93 then Some (JArr (acc ++ [v])%list, r)
              else None
          | EmptyString => None
          end
      | None => None
      end
  end
with parse_members (fuel : nat) (s : string) (acc : gmap string json) : option (json * string) :=
  match fuel with
  | O => None
  | S fuel' =>
      match skip_ws s with
      | String q r =>
          if at_code q 34 then
            match parse_string r EmptyString with
            | Some (k, rest) =>
                match skip_ws rest with
                | String colon r1 =>
                    if at_code colon 58 then
                      match parse_value fuel' r1 with
                      | Some (v, rest') =>
                          match skip_ws rest' with
                          | String c r2 =>
                              if at_code c 44 then parse_members fuel' r2 (<[k := v]> acc)
                              else if at_code c 125 then Some (JObj (<[k := v]> acc), r2)
                              else None
                          | EmptyString => None
                          end
                      | None => None
                      end
                    else None
                | EmptyString => None
                end
            | None => None
            end
          else None
      | EmptyString => None
      end
  end.

Definition parse (text : string) : option json :=
  match parse_value (2 * String.length text + 2) text with
  | Some (v, rest) =>
      match skip_ws rest with
      | EmptyString => Some v
      | String _ _ => None
      end
  | None => None
  end.

End JsonText.

Definition dq : string := String (Ascii.ascii_of_nat 34) EmptyString.
Definition lf : string := String (Ascii.ascii_of_nat 10) EmptyString.

(** The lines [{"a":1}] and [{"b":2}], and the stream of the example. *)
Definition line_a : string := "{" +:+ dq +:+ "a" +:+ dq +:+ ":1}".
Definition line_b : string := "{" +:+ dq +:+ "b" +:+ dq +:+ ":2}".
Definition jsonl_example : string :=
  line_a +:+ lf +:+ "NOT JSON" +:+ lf +:+ line_b +:+ lf.

(** ** Vocabulary for [spawnProcess] *)

(** The events that can settle the promise. *)
Definition settling (hasAbortController : bool) (ev : event) : bool :=
  match ev with
  | Abort => hasAbortController
  | Exit _ | ProcessError _ => true
  | StdoutData _ | StderrData _ => false
  end.

(** The text received on stdout, and on stderr, in a sequence of events. *)
Fixpoint stdout_text (events : list event) : string :=
  match events with
  | [] => ""
  | StdoutData chunk :: rest => chunk +:+ stdout_text rest
  | _ :: rest => stdout_text rest
  end.

Fixpoint stderr_text (events : list event) : string :=
  match events with
  | [] => ""
  | StderrData chunk :: rest => chunk +:+ stderr_text rest
  | _ :: rest => stderr_text rest
  end.

(** ** Vocabulary for [spawnJSONLProcess] *)

(** The events that leave the read loop running: a line, a chunk on
    stderr, an [exit] of the child (which nothing listens to yet). *)
Definition in_the_loop (ev : stream_event) : bool :=
  match ev with
  | StdoutLine _ | StderrText _ | ChildExited _ => true
  | StdoutClosed | StdoutFailed _ | ChildFailed _ => false
  end.

Definition is_stderr (ev : stream_event) : bool :=
  match ev with
  | StderrText _ => true
  | _ => false
  end.

(** The lines read from stdout, and the text received on stderr, in a
    sequence of events. *)
Fixpoint lines_of (events : list stream_event) : list string :=
  match events with
  | [] => []
  | StdoutLine line :: rest => line :: lines_of rest
  | _ :: rest => lines_of rest
  end.

Fixpoint stderr_in (events : list stream_event) : string :=
  match events with
  | [] => ""
  | StderrText chunk :: rest => chunk +:+ stderr_in rest
  | _ :: rest => stderr_in rest
  end.

(** A TAB. *)
Definition tab : string := String (Ascii.ascii_of_nat 9) EmptyString.

Lemma loadFeatures_run now w :
  run (loadFeatures now) w = (Return (loaded now (feature_list w)), w).
Proof.
  unfold loadFeatures, loaded, try_catch, readFile, mbind, M_bind, lift; simpl.
  destruct (data (feature_list w)) as [c|]; simpl; [|done].
  unfold mbind, outcome_bind.
  destruct (JSON_parse c) as [v|e]; simpl; [|done].
  destruct (as_array v) as [l|e]; simpl; [|done].
  by destruct (Array_map (with_id now) l).
Qed.

Lemma create_backup_run w : run create_backup w = (Return tt, backed_up w).
Proof.
  unfold create_backup, backed_up, try_catch, readFile, writeFile, mbind, M_bind; simpl.
  destruct (data (feature_list w)) as [c|]; simpl; [|done].
  by destruct (writable (feature_list_backup w)).
Qed.

Lemma restore_from_backup_run features w :
  run (restore_from_backup features) w = (Return (working_set features w), w).
Proof.
  unfold restore_from_backup, working_set.
  destruct features as [|f fs]; simpl; [|done].
  unfold try_catch, readFile, mbind, M_bind, lift; simpl.
  destruct (data (feature_list_backup w)) as [[raw|v]|]; simpl; [done| |done].
  destruct v as [| | | |[|b bs]|]; simpl; done.
Qed.

Lemma backed_up_feature_list w : feature_list (backed_up w) = feature_list w.
Proof.
  unfold backed_up. destruct (data (feature_list w)); [|done].
  by destruct (writable (feature_list_backup w)).
Qed.

Lemma get_prop_props f k : f ≠ JNull → get_prop f k = Return (props f k).
Proof. by destruct f. Qed.

Lemma copy_fields_run always f ks D :
  f ≠ JNull → NoDup ks → (∀ k, k ∈ ks → D !! k = None) →
  ∃ D', copy_fields always f ks D = Return D'
        ∧ (∀ k, k ∈ ks → omap id D' !! k = props f k)
        ∧ (∀ k, k ∉ ks → D' !! k = D !! k).
Proof.
  intros Hf. revert D. induction ks as [|k ks IH]; intros D Hnd Hfresh.
  - exists D. split_and!; [done| |done]. intros k Hk. by apply elem_of_nil in Hk.
  - simpl. rewrite get_prop_props by done. simpl.
    apply NoDup_cons in Hnd as [Hk Hnd].
    set (D1 := if always then <[k:=props f k]> D
               else match props f k with Some _ => <[k:=props f k]> D | None => D end).
    assert (Hsame : ∀ k', k' ≠ k → D1 !! k' = D !! k').
    { intros k' Hne. subst D1. destruct always; [by rewrite lookup_insert_ne|].
      destruct (props f k); [by rewrite lookup_insert_ne|done]. }
    assert (Hset : omap id D1 !! k = props f k).
    { rewrite lookup_omap. subst D1.
      destruct always; [by rewrite lookup_insert_eq|].
      destruct (props f k) eqn:Hp; [by rewrite lookup_insert_eq|].
      by rewrite Hfresh by left. }
    destruct (IH D1) as (D' & HD' & Hin & Hout); [done| |].
    { intros k' Hk'. rewrite Hsame by (intros ->; done). apply Hfresh. by right. }
    exists D'. split_and!; [done| |].
    + intros k' [->|Hk']%elem_of_cons; [|by apply Hin].
      rewrite lookup_omap, Hout by done. by rewrite <-lookup_omap.
    + intros k' Hk'. apply not_elem_of_cons in Hk' as [? ?].
      rewrite Hout by done. by apply Hsame.
Qed.

Lemma featureData_run f :
  f ≠ JNull → ∃ D, featureData f = Return D ∧ omap id D = saved f.
Proof.
  intros Hf. unfold featureData.
  destruct (copy_fields_run true f required_fields ∅ Hf) as (D0 & -> & Hin0 & Hout0).
  { unfold required_fields. by apply (bool_decide_unpack _); vm_compute. }
  { intros k _. apply lookup_empty. }
  unfold mbind, outcome_bind; cbv beta iota.
  assert (Hdisj : ∀ k, k ∈ optional_fields → k ∉ required_fields).
  { apply Forall_forall. unfold optional_fields, required_fields.
    by apply (bool_decide_unpack _); vm_compute. }
  destruct (copy_fields_run false f optional_fields D0 Hf) as (D & -> & Hin1 & Hout1).
  { unfold optional_fields. by apply (bool_decide_unpack _); vm_compute. }
  { intros k Hk. rewrite Hout0 by auto. apply lookup_empty. }
  assert (Hcanon : ∀ k, k ∈ canonical_fields ↔ k ∈ required_fields ∨ k ∈ optional_fields).
  { intros k. apply elem_of_app. }
  exists D. split; [done|]. apply map_eq. intros k.
  unfold saved. rewrite map_lookup_filter.
  destruct (decide (k ∈ optional_fields)) as [Ho|Ho].
  - rewrite Hin1 by done. unfold props.
    destruct (own_props f !! k); simpl; [|done].
    rewrite option_guard_True; [done|]. apply Hcanon. by right.
  - rewrite lookup_omap, Hout1, <-lookup_omap by done.
    destruct (decide (k ∈ required_fields)) as [Hr|Hr].
    + rewrite Hin0 by done. unfold props.
      destruct (own_props f !! k); simpl; [|done].
      rewrite option_guard_True; [done|]. apply Hcanon. by left.
    + rewrite lookup_omap, Hout0, lookup_empty by done. simpl.
      destruct (own_props f !! k); simpl; [|done].
      rewrite option_guard_False; [done|]. intros [?|?]%Hcanon; done.
Qed.

Lemma featureData_null : ∃ e, featureData JNull = Throw e.
Proof. by eexists. Qed.

Lemma Array_find_from_Some p i l j f :
  Array_find_from p i l = Return (Some (j, f)) →
  ∃ k, j = i + k ∧ l !! k = Some f ∧ p f = Return true
       ∧ ∀ k' g, k' < k → l !! k' = Some g → p g = Return false.
Proof.
  revert i. induction l as [|x l IH]; intros i; simpl; [done|].
  unfold mbind, outcome_bind. destruct (p x) as [[|]|e] eqn:Hp; [| |done].
  - intros [= <- <-]. exists 0. split_and!; [lia|done|done|lia].
  - intros (k & -> & Hk & Hf & Hlt)%IH. exists (S k).
    split_and!; [lia|done|done|].
    intros [|k'] g ? Hg; simpl in Hg; [by simplify_eq|].
    apply (Hlt k'); [lia|done].
Qed.

Lemma Array_find_from_None p i l :
  Array_find_from p i l = Return None → ∀ f, f ∈ l → p f = Return false.
Proof.
  revert i. induction l as [|x l IH]; intros i; simpl.
  - intros _ f Hf. by apply elem_of_nil in Hf.
  - unfold mbind, outcome_bind. destruct (p x) as [[|]|e] eqn:Hp; [done| |done].
    intros Hl f [->|Hf]%elem_of_cons; [done|]. by eapply IH.
Qed.

Lemma Array_find_from_first p i l k f :
  l !! k = Some f → p f = Return true →
  (∀ k' g, k' < k → l !! k' = Some g → p g = Return false) →
  Array_find_from p i l = Return (Some (i + k, f)).
Proof.
  revert i k. induction l as [|x l IH]; intros i k; [done|].
  destruct k as [|k]; simpl.
  - intros [= ->] -> _. simpl. by rewrite Nat.add_0_r.
  - intros Hk Hf Hlt. rewrite (Hlt 0 x); [|lia|done]. simpl.
    rewrite (IH (S i) k); [|done|done|].
    + do 3 f_equal. lia.
    + intros k' g ? Hg. apply (Hlt (S k')); [lia|done].
Qed.

Lemma Array_find_from_all_false p i l :
  (∀ f, f ∈ l → p f = Return false) → Array_find_from p i l = Return None.
Proof.
  revert i. induction l as [|x l IH]; intros i Hall; simpl; [done|].
  rewrite Hall; [|by left]. simpl. apply IH. intros f Hf. apply Hall. by right.
Qed.

Lemma Array_map_from_Return {B} (g : nat → json → outcome B) i l ys :
  Array_map_from g i l = Return ys →
  length ys = length l
  ∧ ∀ k x, l !! k = Some x → ∃ y, ys !! k = Some y ∧ g (i + k) x = Return y.
Proof.
  revert i ys. induction l as [|x l IH]; intros i ys; simpl.
  - intros [= <-]. split; [done|]. intros k x Hk. by rewrite lookup_nil in Hk.
  - unfold mbind, outcome_bind. destruct (g i x) as [y|e] eqn:Hg; [|done].
    destruct (Array_map_from g (S i) l) as [ys'|e] eqn:Hl; [|done].
    intros [= <-]. destruct (IH _ _ Hl) as [Hlen Hk]. split; [simpl; lia|].
    intros [|k] x' Hx; simpl in *.
    + simplify_eq. exists y. by rewrite Nat.add_0_r.
    + destruct (Hk k x' Hx) as (y' & ? & Hy'). exists y'. split; [done|].
      by replace (i + S k) with (S i + k) by lia.
Qed.

Lemma Array_map_from_total {B} (g : nat → json → outcome B) i l :
  (∀ k x, l !! k = Some x → ∃ y, g (i + k) x = Return y) →
  ∃ ys, Array_map_from g i l = Return ys.
Proof.
  revert i. induction l as [|x l IH]; intros i Hall; simpl; [by eexists|].
  destruct (Hall 0 x eq_refl) as [y Hy]. rewrite Nat.add_0_r in Hy. rewrite Hy. simpl.
  destruct (IH (S i)) as [ys Hys].
  - intros k x' Hk. destruct (Hall (S k) x' Hk) as [y' Hy']. exists y'.
    by replace (S i + k) with (i + S k) by lia.
  - rewrite Hys. simpl. by eexists.
Qed.

Lemma save_records_from i l Ds :
  Array_map_from (λ _, featureData) i l = Return Ds →
  (∀ f, f ∈ l → f ≠ JNull) ∧ stringify_object <$> Ds = (JObj ∘ saved) <$> l.
Proof.
  revert i Ds. induction l as [|f l IH]; intros i Ds; simpl.
  - intros [= <-]. split; [|done]. intros f Hf. by apply elem_of_nil in Hf.
  - unfold mbind, outcome_bind.
    destruct (featureData f) as [D|e] eqn:HD; [|done].
    destruct (Array_map_from _ (S i) l) as [Ds'|e] eqn:Hl; [|done].
    intros [= <-]. destruct (IH _ _ Hl) as [Hnn Heq].
    assert (f ≠ JNull) as Hf by (intros ->; by destruct featureData_null as [e He]; rewrite He in HD).
    split.
    + intros g [->|Hg]%elem_of_cons; [done|by apply Hnn].
    + destruct (featureData_run f Hf) as (D' & HD' & Hsaved).
      rewrite HD in HD'. injection HD' as <-.
      rewrite !fmap_cons, Heq. unfold stringify_object at 1. simpl. by rewrite Hsaved.
Qed.

Lemma save_records_total i l :
  (∀ f, f ∈ l → f ≠ JNull) →
  ∃ Ds, Array_map_from (λ _, featureData) i l = Return Ds.
Proof.
  intros Hnn. apply Array_map_from_total. intros k x Hk.
  destruct (featureData_run x) as (D & HD & _); [|by exists D].
  apply Hnn. by eapply list_elem_of_lookup_2.
Qed.

Lemma run_bind {A B} (m : M A) (f : A → M B) w :
  run (m ≫= f) w =
  match run m w with
  | (Return a, w') => run (f a) w'
  | (Throw e, w') => (Throw e, w')
  end.
Proof. done. Qed.

Lemma run_lift {A} (o : outcome A) w : run (lift o) w = (o, w).
Proof. done. Qed.

Lemma run_ret {A} (a : A) w : run (mret a) w = (Return a, w).
Proof. done. Qed.

Lemma updateFeatureStatus_run now featureId status summary error w :
  run (updateFeatureStatus now featureId status summary error) w =
  let w1 := backed_up w in
  let features := working_set (loaded now (feature_list w)) w1 in
  match Array_find (has_id featureId) features with
  | Throw e => (Throw e, w1)
  | Return None => (Return tt, w1)
  | Return (Some (i, feature)) =>
      match on_object (apply_status status summary error) feature with
      | Throw e => (Throw e, w1)
      | Return feature' =>
          match Array_map (λ _, featureData) (<[i := feature']> features) with
          | Throw e => (Throw e, w1)
          | Return toSave => run (save toSave) w1
          end
      end
  end.
Proof.
  unfold updateFeatureStatus.
  rewrite run_bind, create_backup_run, run_bind, loadFeatures_run.
  rewrite run_bind, restore_from_backup_run, run_bind, run_lift.
  rewrite backed_up_feature_list. cbv zeta.
  destruct (Array_find _ _) as [[[i feature]|]|e]; [|done|done].
  rewrite run_bind, run_lift.
  destruct (on_object _ feature) as [feature'|e]; [|done].
  rewrite run_bind, run_lift.
  by destruct (Array_map _ _).
Qed.

Lemma with_id_run now index f :
  f ≠ JNull →
  with_id now index f = Return (JObj (<["id" := ensured_id now index f]> (spread f))).
Proof.
  intros Hf. unfold with_id, ensured_id, synthesized_id, props.
  destruct f; try done. simpl. by destruct (m !! "id").
Qed.

Lemma with_id_null now index : ∃ e, with_id now index JNull = Throw e.
Proof. by eexists. Qed.

Lemma Array_map_with_id_total now i (l : list json) :
  (∀ f, f ∈ l → f ≠ JNull) →
  ∃ items, Array_map_from (with_id now) i l = Return items.
Proof.
  intros Hnn. apply Array_map_from_total. intros k x Hk.
  eexists. apply with_id_run, Hnn. by eapply list_elem_of_lookup_2.
Qed.

Lemma truthy_ensured_id now index f : truthy (Some (ensured_id now index f)) = true.
Proof.
  unfold ensured_id. destruct (props f "id") as [j|]; [|done].
  by destruct (truthy (Some j)) eqn:Hj.
Qed.

Lemma loaded_lookup now fl k g :
  loaded now fl !! k = Some g →
  ∃ records f, data fl = Some (Doc (JArr records)) ∧ records !! k = Some f
    ∧ g = JObj (<["id" := ensured_id now k f]> (spread f)).
Proof.
  unfold loaded. destruct (data fl) as [[raw|v]|]; simpl; [done| |done].
  destruct v as [| | | |records|]; simpl; try done.
  destruct (Array_map (with_id now) records) as [items|e] eqn:Hmap; [|done].
  intros Hk. apply Array_map_from_Return in Hmap as [Hlen Hitems].
  destruct (lookup_lt_is_Some_2 records k) as [f Hf].
  { rewrite <-Hlen. by eapply lookup_lt_Some. }
  destruct (Hitems k f Hf) as (g' & Hg' & Hwith). simplify_eq.
  exists records, f. split_and!; [done|done|]. simpl in Hwith.
  assert (Hnn : f ≠ JNull).
  { intros ->. by destruct (with_id_null now k) as [e He]; rewrite He in Hwith. }
  rewrite with_id_run in Hwith by done. by injection Hwith.
Qed.

Lemma loaded_object now fl g :
  g ∈ loaded now fl → ∃ m id, g = JObj m ∧ m !! "id" = Some id ∧ truthy (Some id) = true.
Proof.
  intros (k & Hk)%list_elem_of_lookup_1.
  apply loaded_lookup in Hk as (records & f & _ & _ & ->).
  eexists _, _. split_and!; [done|apply lookup_insert_eq|apply truthy_ensured_id].
Qed.

Lemma loaded_id now fl records i r f v :
  data fl = Some (Doc (JArr records)) → records !! i = Some r →
  loaded now fl !! i = Some f → get_prop r "id" = Return v →
  get_prop f "id" = Return (Some (if truthy v then default JNull v else synthesized_id now i)).
Proof.
  intros Hdata Hr Hf Hv.
  apply loaded_lookup in Hf as (records' & r' & Hdata' & Hr' & ->).
  rewrite Hdata in Hdata'. simplify_eq. simpl. rewrite lookup_insert_eq.
  destruct r as [| | | | |m]; simpl in Hv; simplify_eq; try done.
  unfold ensured_id, props. simpl. by destruct (m !! "id") as [j|].
Qed.

(** An array without [null] entries is loaded entry by entry. *)
Lemma loaded_entries now fl (records : list json) :
  data fl = Some (Doc (JArr records)) →
  (∀ r, r ∈ records → r ≠ JNull) →
  length (loaded now fl) = length records
  ∧ ∀ i r, records !! i = Some r → ∃ f, loaded now fl !! i = Some f.
Proof.
  intros Hdata Hnn.
  destruct (Array_map_with_id_total now 0 records Hnn) as [items Hitems].
  assert (loaded now fl = items) as ->.
  { unfold loaded, Array_map. rewrite Hdata. simpl. by rewrite Hitems. }
  apply Array_map_from_Return in Hitems as [Hlen Hitems].
  split; [done|]. intros i r Hr.
  destruct (Hitems i r Hr) as (g & Hg & _). by exists g.
Qed.

(** C10 (as amended).  [loadFeatures] always returns, and leaves the
    files and the write log as they were.  Every item it returns has an
    [id] that is defined and truthy.  When the feature list is an array
    without [null] entries, there is one item per record of the file, at
    the record's position: a record with a truthy [id] keeps it, and a
    record whose [id] is absent or falsy is returned with the id
    [feature-<index>-<time>]; since nothing is written back, a load of
    the same file at another time returns it with a different id. *)
Theorem C10_load_ensures_ids (now : nat → Z) (w : world) :
  ∃ items,
    run (loadFeatures now) w = (Return items, w)
    ∧ (∀ f, f ∈ items →
         ∃ id, get_prop f "id" = Return (Some id) ∧ truthy (Some id) = true)
    ∧ ∀ records,
        data (feature_list w) = Some (Doc (JArr records)) →
        (∀ r, r ∈ records → r ≠ JNull) →
        length items = length records
        ∧ ∀ i r, records !! i = Some r →
            ∃ f v,
              items !! i = Some f
              ∧ get_prop r "id" = Return v
              ∧ (truthy v = true → get_prop f "id" = Return v)
              ∧ (truthy v = false →
                 get_prop f "id"
                 = Return (Some (JStr ("feature-" +:+ pretty i +:+ "-" +:+ pretty (now i))))
                 ∧ ∀ now', now' i ≠ now i →
                     ∃ items' f',
                       run (loadFeatures now') w = (Return items', w)
                       ∧ items' !! i = Some f'
                       ∧ get_prop f' "id"
                         = Return (Some (JStr ("feature-" +:+ pretty i +:+ "-"
                                               +:+ pretty (now' i))))
                       ∧ get_prop f' "id" ≠ get_prop f "id").
Proof.
  exists (loaded now (feature_list w)). split_and!.
  - apply loadFeatures_run.
  - intros f (m & id & -> & Hid & Ht)%loaded_object. exists id. simpl. by rewrite Hid.
  - intros records Hdata Hnn.
    destruct (loaded_entries now _ records Hdata Hnn) as [Hlen Hat].
    split; [exact Hlen|]. intros i r Hr.
    destruct (Hat i r Hr) as [f Hf].
    assert (∃ v, get_prop r "id" = Return v) as [v Hv].
    { assert (r ≠ JNull) as Hr0 by (by eapply Hnn, list_elem_of_lookup_2).
      destruct r; try done; by eexists. }
    exists f, v.
    pose proof (loaded_id _ _ _ _ _ _ _ Hdata Hr Hf Hv) as Hid.
    split_and!; [done|done| |].
    + intros Ht. rewrite Hid, Ht. by destruct v.
    + intros Ht. rewrite Ht in Hid. split; [done|].
      intros now' Hne.
      destruct (loaded_entries now' _ records Hdata Hnn) as [_ Hat'].
      destruct (Hat' i r Hr) as [f' Hf'].
      pose proof (loaded_id _ _ _ _ _ _ _ Hdata Hr Hf' Hv) as Hid'.
      rewrite Ht in Hid'.
      exists (loaded now' (feature_list w)), f'.
      split_and!; [apply loadFeatures_run|done|done|].
      rewrite Hid, Hid'. unfold synthesized_id.
      intros [= Heq]. apply Hne.
      by repeat (apply (inj _) in Heq).
Qed.

Lemma C10_witness :
  let w := on_disk (Some (Doc (JArr [JObj (work_item "a" "backlog");
                                     JObj {[ "status" := JStr "backlog" ]}]))) None in
  ∃ items f,
    run (loadFeatures (clock 1700000000000)) w = (Return items, w)
    ∧ length items = 2
    ∧ items !! 1 = Some f
    ∧ get_prop f "id" = Return (Some (JStr "feature-1-1700000000000")).
Proof.
  intros w.
  destruct (C10_load_ensures_ids (clock 1700000000000) w) as (items & Hrun & _ & Hrec).
  destruct (Hrec [JObj (work_item "a" "backlog"); JObj {[ "status" := JStr "backlog" ]}]
              eq_refl) as [Hlen Hat].
  - intros r Hr ->.
    inversion Hr as [|? ? ? Hr1]; subst. inversion Hr1 as [|? ? ? Hr2]; subst.
    inversion Hr2.
  - destruct (Hat 1 (JObj {[ "status" := JStr "backlog" ]}) eq_refl)
      as (f & v & Hf & Hv & _ & Hfresh).
    vm_compute in Hv. injection Hv as <-.
    destruct (Hfresh eq_refl) as [Hid _].
    exists items, f. split; [exact Hrun|]. split; [exact Hlen|]. split; [exact Hf|].
    exact Hid.
Defined.

(** A record without id in a file that also has a [null] entry: it is
    not returned at all, with or without a synthesized id. *)
Lemma C10_counterexample_null_entry_hides_the_record :
  let w := on_disk (Some (Doc (JArr [JObj {[ "status" := JStr "backlog" ]}; JNull]))) None in
  run (loadFeatures (clock 1700000000000)) w = (Return [], w).
Proof. vm_compute. reflexivity. Qed.

(** ** [selectNextFeature] *)

Lemma eligible_true m : selectable m → eligible (JObj m) = Return true.
Proof.
  unfold eligible, selectable. simpl. intros [Hv Hw]. f_equal.
  destruct (m !! "status") as [[| | |s| |]|]; simpl; try done.
  destruct (String.eqb_spec s "verified") as [->|?]; [done|].
  by destruct (String.eqb_spec s "waiting_approval") as [->|?].
Qed.

Lemma eligible_false m : ¬ selectable m → eligible (JObj m) = Return false.
Proof.
  unfold eligible, selectable. simpl. intros Hn. f_equal.
  destruct (m !! "status") as [[| | |s| |]|]; simpl;
    try (destruct Hn; split; congruence).
  destruct (String.eqb_spec s "verified") as [->|?]; [done|].
  destruct (String.eqb_spec s "waiting_approval") as [->|?]; [done|].
  destruct Hn; split; congruence.
Qed.

Lemma eligible_inv m b :
  eligible (JObj m) = Return b → if b then selectable m else ¬ selectable m.
Proof.
  unfold eligible, selectable. simpl. intros [= <-].
  destruct (m !! "status") as [[| | |s| |]|]; simpl; try (split; congruence).
  destruct (String.eqb_spec s "verified") as [->|?]; simpl; [by intros [? _]|].
  destruct (String.eqb_spec s "waiting_approval") as [->|?]; simpl; [by intros [_ ?]|].
  split; congruence.
Qed.

(** C4.  Over a list of work items, [selectNextFeature] returns the first
    item, in list order, whose status is neither [verified] nor
    [waiting_approval], and [undefined] when there is none; whatever it
    returns is such a first item.  Over the statuses verified,
    waiting_approval, backlog, error it returns the item at index 2, and
    an item whose status is [error] can be selected. *)
Theorem C4_select_next_first_selectable (items : list (gmap string json)) :
  (∀ i m, items !! i = Some m → selectable m →
     (∀ j m', j < i → items !! j = Some m' → ¬ selectable m') →
     selectNextFeature (JObj <$> items) = Return (Some (JObj m)))
  ∧ ((∀ m, m ∈ items → ¬ selectable m) →
     selectNextFeature (JObj <$> items) = Return None)
  ∧ (∀ f, selectNextFeature (JObj <$> items) = Return (Some f) →
     ∃ i m, f = JObj m ∧ items !! i = Some m ∧ selectable m
            ∧ ∀ j m', j < i → items !! j = Some m' → ¬ selectable m')
  ∧ (let backlog := [with_status "verified"; with_status "waiting_approval";
                     with_status "backlog"; with_status "error"] in
     selectNextFeature (JObj <$> backlog) = Return (JObj <$> backlog !! 2)
     ∧ backlog !! 2 = Some (with_status "backlog"))
  ∧ (∀ m, m !! "status" = Some (JStr "error") → selectable m).
Proof.
  split_and!.
  - intros i m Hi Hm Hfirst. unfold selectNextFeature, Array_find.
    rewrite (Array_find_from_first eligible 0 (JObj <$> items) i (JObj m)); [done| | |].
    + by rewrite list_lookup_fmap, Hi.
    + by apply eligible_true.
    + intros j g Hj Hg. rewrite list_lookup_fmap in Hg.
      destruct (items !! j) as [m'|] eqn:Hm'; simplify_eq/=.
      apply eligible_false. by eapply Hfirst.
  - intros Hnone. unfold selectNextFeature, Array_find.
    rewrite Array_find_from_all_false; [done|].
    intros f (m & -> & Hm)%list_elem_of_fmap.
    apply eligible_false. by apply Hnone.
  - intros f. unfold selectNextFeature, Array_find.
    destruct (Array_find_from eligible 0 (JObj <$> items)) as [[[i g]|]|e] eqn:Hfind; [|done|done].
    simpl. intros [= <-].
    apply Array_find_from_Some in Hfind as (k & -> & Hk & Hg & Hbefore).
    rewrite list_lookup_fmap in Hk.
    destruct (items !! k) as [m|] eqn:Hm; simplify_eq/=.
    exists k, m. split_and!; [done|done| |].
    + by apply eligible_inv in Hg.
    + intros j m' Hj Hm'.
      specialize (Hbefore j (JObj m') Hj). rewrite list_lookup_fmap, Hm' in Hbefore.
      by apply (eligible_inv m' false), Hbefore.
  - by vm_compute.
  - intros m Hm. unfold selectable. rewrite Hm. split; congruence.
Qed.

Lemma C4_witness :
  selectNextFeature
    (JObj <$> [with_status "verified"; with_status "waiting_approval";
               with_status "backlog"; with_status "error"])
  = Return (Some (JObj (with_status "backlog"))).
Proof.
  apply (proj1 (C4_select_next_first_selectable
                  [with_status "verified"; with_status "waiting_approval";
                   with_status "backlog"; with_status "error"])
           2 (with_status "backlog")).
  - reflexivity.
  - split; vm_compute; discriminate.
  - intros j m' Hj Hm' [Hv Hw].
    destruct j as [|[|j]]; [| |lia]; injection Hm' as <-.
    + apply Hv. vm_compute. reflexivity.
    + apply Hw. vm_compute. reflexivity.
Defined.

(** ** [updateFeatureStatus] *)

Lemma backed_up_writes w : writes (backed_up w) = (writes w ++ backup_writes w)%list.
Proof.
  unfold backed_up, backup_writes. destruct (data (feature_list w)); simpl.
  - destruct (writable (feature_list_backup w)); simpl; [done|by rewrite app_nil_r].
  - by rewrite app_nil_r.
Qed.

Lemma backup_writes_path w p c : (p, c) ∈ backup_writes w → p = backupPath.
Proof.
  unfold backup_writes. destruct (data (feature_list w)); [|by intros ?%elem_of_nil].
  destruct (writable (feature_list_backup w)); [|by intros ?%elem_of_nil].
  intros ?%list_elem_of_singleton. by simplify_eq.
Qed.

Lemma has_id_true f featureId :
  has_id featureId f = Return true → ∃ m, f = JObj m ∧ m !! "id" = Some (JStr featureId).
Proof.
  unfold has_id. destruct f as [| | | | |m]; simpl; try done.
  destruct (m !! "id") as [[| | |s| |]|] eqn:Hid; simpl; try done.
  destruct (String.eqb_spec s featureId) as [->|]; [|done]. by exists m.
Qed.

Lemma has_id_props featureId f :
  f ≠ JNull → has_id featureId f = Return (strict_eq_str (props f "id") featureId).
Proof. intros Hf. unfold has_id. by rewrite get_prop_props. Qed.

Lemma has_id_object m featureId :
  has_id featureId (JObj m) = Return (strict_eq_str (m !! "id") featureId).
Proof. done. Qed.

Lemma length_save_records i l Ds :
  Array_map_from (λ _ : nat, featureData) i l = Return Ds → length Ds = length l.
Proof. by intros [? _]%Array_map_from_Return. Qed.

(** The three ways a call of [updateFeatureStatus] can end: with an
    exception and the feature list as it was; with nothing found and the
    feature list as it was; or with the patched working set written. *)
Lemma updateFeatureStatus_cases now featureId status summary error w :
  let w1 := backed_up w in
  let features := working_set (loaded now (feature_list w)) w1 in
  let call := run (updateFeatureStatus now featureId status summary error) w in
  (∃ e, call = (Throw e, w1))
  ∨ (Array_find (has_id featureId) features = Return None ∧ call = (Return tt, w1))
  ∨ (∃ i m,
       Array_find (has_id featureId) features = Return (Some (i, JObj m))
       ∧ features !! i = Some (JObj m)
       ∧ m !! "id" = Some (JStr featureId)
       ∧ writable (feature_list w) = true
       ∧ call = (Return tt,
                 store featuresPath
                   (Doc (JArr ((JObj ∘ saved)
                               <$> <[i := JObj (apply_status status summary error m)]> features)))
                   w1)).
Proof.
  intros w1 features call. subst call. rewrite updateFeatureStatus_run. cbv zeta.
  fold w1. fold features.
  destruct (Array_find (has_id featureId) features) as [[[i f]|]|e] eqn:Hfind;
    [|right; left; done|left; by eexists].
  unfold Array_find in Hfind.
  apply Array_find_from_Some in Hfind as (k & -> & Hk & Hid & _). simpl.
  apply has_id_true in Hid as (m & -> & Hid). simpl.
  destruct (Array_map _ _) as [toSave|e] eqn:Hmap; [|left; by eexists].
  unfold Array_map in Hmap. pose proof (length_save_records _ _ _ Hmap) as Hlen.
  apply save_records_from in Hmap as [_ Hsaved].
  unfold save. rewrite decide_False.
  2:{ rewrite Hlen, length_insert. apply lookup_lt_Some in Hk. lia. }
  unfold writeFile. simpl. subst w1. rewrite backed_up_feature_list.
  destruct (writable (feature_list w)) eqn:Hw; [|left; by eexists].
  right; right. exists k, m. split_and!; try done.
  unfold JSON_stringify. by rewrite Hsaved.
Qed.

(** C1.  The final validation throws on an empty collection without
    touching the files or the write log, and otherwise goes on to the
    write.  Across a whole call of [updateFeatureStatus], either the
    feature list is left as it was and nothing is written to it, or the
    call returns after exactly one write to it, of an array that holds at
    least one record. *)
Theorem C1_empty_collection_is_never_written :
  (∀ w, run (save []) w = (Throw empty_save_error, w))
  ∧ (∀ toSave w, toSave ≠ [] →
       run (save toSave) w = run (writeFile featuresPath (JSON_stringify toSave)) w)
  ∧ (∀ now featureId status summary error w o w',
       run (updateFeatureStatus now featureId status summary error) w = (o, w') →
       (feature_list w' = feature_list w ∧ writes w' = (writes w ++ backup_writes w)%list)
       ∨ (∃ records, records ≠ [] ∧ o = Return tt
            ∧ data (feature_list w') = Some (Doc (JArr records))
            ∧ writes w'
              = (writes w ++ backup_writes w ++ [(featuresPath, Doc (JArr records))])%list)).
Proof.
  split_and!.
  - done.
  - intros toSave w Hne. unfold save. rewrite decide_False; [done|].
    by destruct toSave.
  - intros now featureId status summary error w o w' Hrun.
    destruct (updateFeatureStatus_cases now featureId status summary error w)
      as [[e He]|[[_ He]|(i & m & _ & Hi & _ & _ & He)]];
      cbv zeta in He; rewrite Hrun in He; simplify_eq.
    + left. by rewrite backed_up_feature_list, backed_up_writes.
    + left. by rewrite backed_up_feature_list, backed_up_writes.
    + right. eexists. split_and!; [|done|done|].
      * apply lookup_lt_Some in Hi. intros Hnil%(f_equal length).
        rewrite length_fmap, length_insert in Hnil. simpl in Hnil. lia.
      * simpl. by rewrite backed_up_writes, <-app_assoc.
Qed.

Lemma C1_witness :
  let w := on_disk (Some (Doc (JArr [JObj (work_item "a" "backlog")]))) None in
  run (save [∅]) w = run (writeFile featuresPath (JSON_stringify [∅])) w
  ∧ ∃ records, records ≠ [] ∧
      data (feature_list (run (updateFeatureStatus (clock 0) "a" "verified" None None) w).2)
      = Some (Doc (JArr records)).
Proof.
  intros w. split.
  - apply (proj1 (proj2 C1_empty_collection_is_never_written)). discriminate.
  - destruct (proj2 (proj2 C1_empty_collection_is_never_written)
                (clock 0) "a" "verified" None None w
                (run (updateFeatureStatus (clock 0) "a" "verified" None None) w).1
                (run (updateFeatureStatus (clock 0) "a" "verified" None None) w).2)
      as [[_ Hw]|(records & Hne & _ & Hdata & _)].
    + apply surjective_pairing.
    + exfalso. vm_compute in Hw. discriminate Hw.
    + exists records. split; [exact Hne|exact Hdata].
Defined.

Lemma saved_lookup f k :
  saved f !! k = if decide (k ∈ canonical_fields) then props f k else None.
Proof.
  unfold saved, props. rewrite map_lookup_filter.
  destruct (own_props f !! k) as [v|]; simpl; [|by case_decide].
  case_decide; [by rewrite option_guard_True|by rewrite option_guard_False].
Qed.

Lemma saved_canonical f k : k ∈ canonical_fields → saved f !! k = props f k.
Proof. intros Hk. by rewrite saved_lookup, decide_True. Qed.

Lemma id_canonical : "id" ∈ canonical_fields.
Proof. by apply (bool_decide_unpack _); vm_compute. Qed.

Lemma apply_status_other status summary error m k :
  k ≠ "status" → k ≠ "summary" → k ≠ "error" →
  apply_status status summary error m !! k = m !! k.
Proof.
  intros H1 H2 H3. unfold apply_status.
  assert (∀ m' : gmap string json,
            match summary with
            | Some s => if truthy (Some (JStr s)) then <["summary" := JStr s]> m' else m'
            | None => m'
            end !! k = m' !! k) as Hsum.
  { intros m'. destruct summary as [s|]; [|done].
    destruct (truthy _); [by rewrite lookup_insert_ne|done]. }
  destruct error as [e|]; [destruct (truthy _)|].
  - by rewrite lookup_insert_ne, Hsum, lookup_insert_ne.
  - by rewrite lookup_delete_ne, Hsum, lookup_insert_ne.
  - by rewrite lookup_delete_ne, Hsum, lookup_insert_ne.
Qed.

Lemma working_set_keeps features w :
  features ≠ [] → working_set features w = features.
Proof. by destruct features. Qed.

Lemma working_set_length (features : list json) w :
  (length features ≤ length (working_set features w))%nat.
Proof.
  destruct features as [|f fs]; [simpl; lia|]. by rewrite working_set_keeps.
Qed.

(** A write of the feature list keeps the loaded collection. *)
Lemma write_keeps_loaded now featureId status summary error w o w' new c :
  run (updateFeatureStatus now featureId status summary error) w = (o, w') →
  writes w' = (writes w ++ new)%list →
  (featuresPath, c) ∈ new →
  ∃ records,
    c = Doc (JArr records)
    ∧ data (feature_list w') = Some c
    ∧ (length (loaded now (feature_list w)) ≤ length records)%nat
    ∧ ∀ i f, loaded now (feature_list w) !! i = Some f →
        ∃ g, records !! i = Some g ∧ get_prop g "id" = get_prop f "id".
Proof.
  intros Hrun Hnew Hc.
  destruct (updateFeatureStatus_cases now featureId status summary error w)
    as [[e He]|[[_ He]|(i & m & _ & Hi & Hid & _ & He)]];
    cbv zeta in He; rewrite Hrun in He; simplify_eq.
  - rewrite backed_up_writes in Hnew. apply app_inv_head in Hnew as <-.
    by apply backup_writes_path in Hc.
  - rewrite backed_up_writes in Hnew. apply app_inv_head in Hnew as <-.
    by apply backup_writes_path in Hc.
  - simpl in Hnew. rewrite backed_up_writes, <-app_assoc in Hnew.
    apply app_inv_head in Hnew as <-.
    apply elem_of_app in Hc as [Hc|Hc]; [by apply backup_writes_path in Hc|].
    apply list_elem_of_singleton in Hc. injection Hc as ->.
    eexists. split_and!; [done|done| |].
    + rewrite length_fmap, length_insert. apply working_set_length.
    + intros j f Hj.
      assert (loaded now (feature_list w) ≠ []) as Hne by (intros Hnil; by rewrite Hnil in Hj).
      rewrite working_set_keeps in * by done.
      destruct (loaded_object now (feature_list w) f) as (mf & idf & -> & Hidf & _).
      { by eapply list_elem_of_lookup_2. }
      rewrite list_lookup_fmap.
      destruct (decide (j = i)) as [->|Hji].
      * rewrite list_lookup_insert_eq by (by eapply lookup_lt_Some).
        eexists. split; [done|]. simpl. f_equal.
        rewrite saved_canonical by apply id_canonical. unfold props. simpl.
        rewrite apply_status_other by done. by simplify_eq.
      * rewrite list_lookup_insert_ne, Hj by done.
        eexists. split; [done|]. simpl. f_equal.
        by rewrite saved_canonical by apply id_canonical.
Qed.

(** C3 (as amended).  When a call of [updateFeatureStatus] writes the
    feature list, the array it writes is what the file holds afterwards,
    is at least as long as the collection [loadFeatures] returns at the
    start of the call, and has every record of that collection, at its
    position and under its id.  When the file held an array without
    [null] entries before the call, that is every record of the file:
    the array written is at least as long, and a record that had a
    truthy id is still there, at its position and under its id (one
    that had none is there under the id the load gave it). *)
Theorem C3_write_never_shrinks
    now featureId status summary error w before o w' new c :
  run (loadFeatures now) w = (Return before, w) →
  run (updateFeatureStatus now featureId status summary error) w = (o, w') →
  writes w' = (writes w ++ new)%list →
  (featuresPath, c) ∈ new →
  ∃ records,
    c = Doc (JArr records)
    ∧ data (feature_list w') = Some c
    ∧ (length before ≤ length records)%nat
    ∧ (∀ i f, before !! i = Some f →
         ∃ g, records !! i = Some g ∧ get_prop g "id" = get_prop f "id")
    ∧ ∀ persisted,
        data (feature_list w) = Some (Doc (JArr persisted)) →
        (∀ r, r ∈ persisted → r ≠ JNull) →
        (length persisted ≤ length records)%nat
        ∧ ∀ i r, persisted !! i = Some r →
            ∃ g v, records !! i = Some g
              ∧ get_prop r "id" = Return v
              ∧ (truthy v = true → get_prop g "id" = Return v)
              ∧ (truthy v = false → get_prop g "id" = Return (Some (synthesized_id now i))).
Proof.
  intros Hload Hrun Hnew Hc.
  rewrite loadFeatures_run in Hload. injection Hload as <-.
  destruct (write_keeps_loaded _ _ _ _ _ _ _ _ _ _ Hrun Hnew Hc)
    as (records & -> & Hdata & Hlen & Hkept).
  exists records. split_and!; [done|done|done|done|].
  intros persisted Hfile Hnn.
  destruct (loaded_entries now _ persisted Hfile Hnn) as [Hlen' Hat].
  split; [by rewrite <- Hlen'|].
  intros i r Hr. destruct (Hat i r Hr) as [f Hf].
  destruct (Hkept i f Hf) as (g & Hg & Hid).
  assert (∃ v, get_prop r "id" = Return v) as [v Hv].
  { assert (r ≠ JNull) as Hr0 by (by eapply Hnn, list_elem_of_lookup_2).
    destruct r; try done; by eexists. }
  exists g, v. rewrite Hid, (loaded_id _ _ _ _ _ _ _ Hfile Hr Hf Hv).
  split_and!; [done|done| |].
  - intros Ht. rewrite Ht. by destruct v.
  - intros Ht. by rewrite Ht.
Qed.

Lemma C3_witness :
  let before := [JObj (work_item "a" "backlog"); JObj (work_item "b" "in_progress")] in
  let w := on_disk (Some (Doc (JArr before))) None in
  let call := run (updateFeatureStatus (clock 0) "b" "verified" None None) w in
  ∃ records,
    data (feature_list call.2) = Some (Doc (JArr records)) ∧ (2 ≤ length records)%nat.
Proof.
  intros before w call.
  destruct (C3_write_never_shrinks (clock 0) "b" "verified" None None w before
              call.1 call.2 (writes call.2)
              (Doc (JArr [JObj (work_item "a" "backlog"); JObj (work_item "b" "verified")])))
    as (records & Hc & Hdata & Hlen & _).
  - vm_compute. reflexivity.
  - apply surjective_pairing.
  - reflexivity.
  - vm_compute. apply list_elem_of_further, list_elem_of_here.
  - exists records. split; [|exact Hlen].
    etransitivity; [exact Hdata|]. f_equal. exact Hc.
Defined.

(** A feature list with a [null] entry cannot be loaded; when the backup
    cannot be overwritten, the call works from the backup's records and
    writes them over the feature list, whose own records are gone. *)
Lemma C3_counterexample_unloadable_list_is_replaced :
  let persisted := [JObj (work_item "r1" "backlog"); JObj (work_item "r2" "backlog"); JNull] in
  let w := World (File (Some (Doc (JArr persisted))) true)
                 (File (Some (Doc (JArr [JObj (work_item "a" "backlog")]))) false) [] in
  run (loadFeatures (clock 0)) w = (Return [], w)
  ∧ run (updateFeatureStatus (clock 0) "a" "verified" None None) w
    = (Return tt, store featuresPath (Doc (JArr [JObj (work_item "a" "verified")])) w).
Proof. split; vm_compute; reflexivity. Qed.

(** When the backup can be written, the backup that the recovery step
    reads is the copy of the feature list made a moment before. *)
Lemma backup_read_is_the_fresh_copy w c :
  data (feature_list w) = Some c → writable (feature_list_backup w) = true →
  data (feature_list_backup (backed_up w)) = Some c.
Proof. intros Hc Hw. unfold backed_up. by rewrite Hc, Hw. Qed.

(** Lines 70-85 taken alone: nothing loaded and a backup that parses to
    a non-empty array make the backup's records the working set. *)
Lemma restore_from_backup_restores features w records :
  length features = 0 →
  data (feature_list_backup w) = Some (Doc (JArr records)) →
  (0 < length records)%nat →
  run (restore_from_backup features) w = (Return records, w).
Proof.
  intros Hlen Hdata Hpos. rewrite restore_from_backup_run. unfold working_set.
  destruct features; [|done]. rewrite Hdata. by destruct records; [simpl in Hpos; lia|].
Qed.

(** With an empty array in the feature list and a backup that can be
    written, a call is a no-op that replaces the backup, whatever the
    backup held and whatever the id. *)
Lemma empty_list_overwrites_any_backup now featureId status summary error backup log :
  run (updateFeatureStatus now featureId status summary error)
      (World (File (Some (Doc (JArr []))) true) (File backup true) log)
  = (Return tt,
     World (File (Some (Doc (JArr []))) true) (File (Some (Doc (JArr []))) true)
           (log ++ [(backupPath, Doc (JArr []))])).
Proof. by rewrite updateFeatureStatus_run. Qed.

(** C2.  An empty feature list next to a valid backup of one record:
    the recovery step, run on these files, would take the backup's
    record as the working set; but the call first copies the empty list
    over the backup, then finds nothing to restore and nothing to update.
    It returns with the feature list still empty and the backup's record
    gone. *)
Theorem C2_backup_is_overwritten_before_restore :
  let backup := Doc (JArr [JObj (work_item "f1" "backlog")]) in
  let w := on_disk (Some (Doc (JArr []))) (Some backup) in
  run (restore_from_backup []) w = (Return [JObj (work_item "f1" "backlog")], w)
  ∧ run (updateFeatureStatus (clock 0) "f1" "verified" None None) w
    = (Return tt,
       World (File (Some (Doc (JArr []))) true) (File (Some (Doc (JArr []))) true)
             [(backupPath, Doc (JArr []))]).
Proof. split; vm_compute; reflexivity. Qed.

(** A call whose id is not found returns, and writes nothing but the
    backup. *)
Lemma updateFeatureStatus_not_found now featureId status summary error w :
  Array_find (has_id featureId)
    (working_set (loaded now (feature_list w)) (backed_up w)) = Return None →
  run (updateFeatureStatus now featureId status summary error) w = (Return tt, backed_up w)
  ∧ feature_list (backed_up w) = feature_list w
  ∧ writes (backed_up w) = (writes w ++ backup_writes w)%list.
Proof.
  intros Hfind. rewrite updateFeatureStatus_run. cbv zeta. rewrite Hfind.
  split_and!; [done|apply backed_up_feature_list|apply backed_up_writes].
Qed.

Lemma Array_find_no_match featureId (features : list json) :
  (∀ f, f ∈ features → f ≠ JNull ∧ props f "id" ≠ Some (JStr featureId)) →
  Array_find (has_id featureId) features = Return None.
Proof.
  intros Hall. apply Array_find_from_all_false. intros f Hf.
  destruct (Hall f Hf) as [Hnn Hid]. unfold has_id.
  rewrite get_prop_props by done. simpl. f_equal.
  destruct (props f "id") as [[| | |s| |]|]; simpl; try done.
  destruct (String.eqb_spec s featureId) as [->|]; done.
Qed.

Lemma Array_map_with_id_null now i (pre post : list json) :
  ∃ e, Array_map_from (with_id now) i (pre ++ JNull :: post)%list = Throw e.
Proof.
  revert i. induction pre as [|f pre IH]; intros i; simpl.
  - by eexists.
  - destruct (with_id now i f) as [g|e]; simpl; [|by eexists].
    destruct (IH (S i)) as [e ->]. by eexists.
Qed.

Lemma Array_find_null featureId i (pre post : list json) :
  (∀ f, f ∈ pre → f ≠ JNull ∧ props f "id" ≠ Some (JStr featureId)) →
  Array_find_from (has_id featureId) i (pre ++ JNull :: post)%list
  = Throw (TypeError "Cannot read properties of null (reading 'id')").
Proof.
  revert i. induction pre as [|f pre IH]; intros i Hpre; [done|].
  simpl. destruct (Hpre f) as [Hnn Hid]; [by left|].
  rewrite has_id_props by done.
  assert (strict_eq_str (props f "id") featureId = false) as ->.
  { destruct (props f "id") as [[| | |s| |]|]; simpl; try done.
    destruct (String.eqb_spec s featureId) as [->|]; done. }
  simpl. apply IH. intros g Hg. apply Hpre. by right.
Qed.

(** A [null] entry in the feature list, with no record of the given id
    before it: whenever the backup can be written, the call throws. *)
Lemma updateFeatureStatus_null_entry_throws
    now featureId status summary error w (pre post : list json) :
  data (feature_list w) = Some (Doc (JArr (pre ++ JNull :: post)%list)) →
  writable (feature_list_backup w) = true →
  (∀ f, f ∈ pre → f ≠ JNull ∧ props f "id" ≠ Some (JStr featureId)) →
  run (updateFeatureStatus now featureId status summary error) w
  = (Throw (TypeError "Cannot read properties of null (reading 'id')"), backed_up w)
  ∧ feature_list (backed_up w) = feature_list w.
Proof.
  intros Hdata Hw Hpre. split; [|apply backed_up_feature_list].
  rewrite updateFeatureStatus_run. cbv zeta.
  assert (loaded now (feature_list w) = []) as ->.
  { unfold loaded, Array_map. rewrite Hdata. simpl.
    by destruct (Array_map_with_id_null now 0 pre post) as [e ->]. }
  assert (working_set [] (backed_up w) = (pre ++ JNull :: post)%list) as ->.
  { unfold working_set. rewrite (backup_read_is_the_fresh_copy w _ Hdata Hw).
    by destruct pre. }
  unfold Array_find. by rewrite Array_find_null.
Qed.

(** C9.  A feature list of one work item and one [null] entry, and an id
    that no record has: the entry makes [loadFeatures] return nothing, the
    backup just taken brings both entries back, and the search for the id
    throws on the [null] entry.  The caller gets a [TypeError]; the
    feature list is not written. *)
Theorem C9_null_entry_raises_when_id_is_missing :
  let records := [JObj (work_item "a" "backlog"); JNull] in
  let w := on_disk (Some (Doc (JArr records))) None in
  Forall (λ r, props r "id" ≠ Some (JStr "b")) records
  ∧ run (updateFeatureStatus (clock 0) "b" "verified" None None) w
    = (Throw (TypeError "Cannot read properties of null (reading 'id')"),
       World (File (Some (Doc (JArr records))) true)
             (File (Some (Doc (JArr records))) true)
             [(backupPath, Doc (JArr records))]).
Proof.
  split.
  - repeat constructor; vm_compute; discriminate.
  - vm_compute. reflexivity.
Qed.

(** ** Saving a patched collection and loading it again *)

Lemma loaded_not_null now fl f : f ∈ loaded now fl → f ≠ JNull.
Proof. by intros (m & id & -> & _)%loaded_object. Qed.

Lemma loaded_truthy_id now fl f : f ∈ loaded now fl → truthy (props f "id") = true.
Proof. intros (m & id & -> & Hid & Ht)%loaded_object. unfold props. simpl. by rewrite Hid. Qed.

Lemma elem_of_patched (features : list json) i f' f :
  f ∈ <[i := f']> features → f = f' ∨ f ∈ features.
Proof.
  intros (j & Hj)%list_elem_of_lookup_1.
  destruct (decide (j = i)) as [->|Hne].
  - destruct (decide (i < length features)%nat) as [Hlt|Hge].
    + rewrite list_lookup_insert_eq in Hj by done. left. by simplify_eq.
    + rewrite list_insert_ge in Hj by lia. right. by eapply list_elem_of_lookup_2.
  - rewrite list_lookup_insert_ne in Hj by done. right. by eapply list_elem_of_lookup_2.
Qed.

Lemma save_patched (features : list json) i f' :
  (∀ f, f ∈ features → f ≠ JNull) → f' ≠ JNull →
  ∃ toSave,
    Array_map (λ _, featureData) (<[i := f']> features) = Return toSave
    ∧ JSON_stringify toSave = Doc (JArr ((JObj ∘ saved) <$> <[i := f']> features)).
Proof.
  intros Hnn Hf'. unfold Array_map.
  destruct (save_records_total 0 (<[i := f']> features)) as [toSave HtoSave].
  { intros f [->|Hf]%elem_of_patched; [done|by apply Hnn]. }
  exists toSave. split; [done|].
  apply save_records_from in HtoSave as [_ Heq]. unfold JSON_stringify. by rewrite Heq.
Qed.

Lemma reload_saved_from now i (l : list json) :
  (∀ f, f ∈ l → truthy (props f "id") = true) →
  Array_map_from (with_id now) i ((JObj ∘ saved) <$> l) = Return ((JObj ∘ saved) <$> l).
Proof.
  revert i. induction l as [|f l IH]; intros i Hall; [done|].
  rewrite fmap_cons. simpl.
  rewrite saved_canonical by apply id_canonical.
  pose proof (Hall f (list_elem_of_here _ _)) as Hid.
  destruct (props f "id") as [j|] eqn:Hj; [|done]. rewrite Hid.
  unfold mbind, mret, outcome_bind, outcome_ret. cbv beta iota.
  rewrite IH by (intros g Hg; apply Hall; by right).
  rewrite insert_id; [done|]. by rewrite saved_canonical by apply id_canonical.
Qed.

Lemma reload_saved now (l : list json) w :
  (∀ f, f ∈ l → truthy (props f "id") = true) →
  loaded now (feature_list (store featuresPath (Doc (JArr ((JObj ∘ saved) <$> l))) w))
  = (JObj ∘ saved) <$> l.
Proof.
  intros Hall. unfold loaded, Array_map. simpl.
  unfold mbind, outcome_bind. by rewrite reload_saved_from.
Qed.

(** The search for an id finds the same position in any collection
    that has the same ids at the same positions. *)
Lemma Array_find_same_ids featureId (l l' : list json) i f :
  Array_find (has_id featureId) l = Return (Some (i, f)) →
  length l' = length l →
  (∀ j g g', l !! j = Some g → l' !! j = Some g' →
     g' ≠ JNull ∧ props g' "id" = props g "id") →
  ∃ f', l' !! i = Some f' ∧ Array_find (has_id featureId) l' = Return (Some (i, f')).
Proof.
  intros Hfind Hlen Hids. unfold Array_find in *.
  apply Array_find_from_Some in Hfind as (k & -> & Hk & Hf & Hbefore). simpl.
  assert (∀ g, has_id featureId g = Return true ∨ has_id featureId g = Return false →
               g ≠ JNull) as Hnn.
  { intros g Hg ->. by destruct Hg. }
  destruct (lookup_lt_is_Some_2 l' k) as [f' Hf'].
  { rewrite Hlen. by eapply lookup_lt_Some. }
  exists f'. split; [done|].
  apply (Array_find_from_first (has_id featureId) 0 l' k f'); [done| |].
  - destruct (Hids k f f' Hk Hf') as [Hnn' Hid]. rewrite has_id_props by done.
    rewrite Hid. rewrite has_id_props in Hf by (apply Hnn; by left). done.
  - intros j g' Hj Hg'.
    destruct (lookup_lt_is_Some_2 l j) as [g Hg].
    { apply lookup_lt_Some in Hk. lia. }
    destruct (Hids j g g' Hg Hg') as [Hnn' Hid]. rewrite has_id_props by done.
    specialize (Hbefore j g Hj Hg). rewrite Hid.
    rewrite has_id_props in Hbefore by (apply Hnn; by right). done.
Qed.

Lemma Array_find_found featureId (l : list json) i f :
  Array_find (has_id featureId) l = Return (Some (i, f)) →
  l !! i = Some f ∧ ∃ m, f = JObj m ∧ m !! "id" = Some (JStr featureId).
Proof.
  unfold Array_find. intros (k & -> & Hk & Hf & _)%Array_find_from_Some.
  split; [done|]. by apply has_id_true.
Qed.

Lemma updateFeatureStatus_found now featureId status summary error w i m :
  Array_find (has_id featureId) (loaded now (feature_list w)) = Return (Some (i, JObj m)) →
  writable (feature_list w) = true →
  run (updateFeatureStatus now featureId status summary error) w
  = (Return tt,
     store featuresPath
       (Doc (JArr ((JObj ∘ saved)
                   <$> <[i := JObj (apply_status status summary error m)]>
                         (loaded now (feature_list w)))))
       (backed_up w)).
Proof.
  intros Hfind Hw. rewrite updateFeatureStatus_run. cbv zeta.
  pose proof (Array_find_found _ _ _ _ Hfind) as [Hi _].
  rewrite working_set_keeps by (intros Hnil; by rewrite Hnil in Hi).
  rewrite Hfind. simpl.
  destruct (save_patched (loaded now (feature_list w)) i
              (JObj (apply_status status summary error m))) as (toSave & -> & HtoSave);
    [by intros f ?%loaded_not_null|done|].
  unfold save. rewrite decide_False.
  - unfold writeFile. simpl. by rewrite backed_up_feature_list, Hw, HtoSave.
  - intros Hnil. apply length_zero_iff_nil in Hnil. subst toSave.
    unfold JSON_stringify in HtoSave. injection HtoSave as HtoSave.
    apply (f_equal length) in HtoSave.
    rewrite length_fmap, length_insert in HtoSave. simpl in HtoSave.
    apply lookup_lt_Some in Hi. lia.
Qed.

Lemma apply_status_status status summary error m :
  apply_status status summary error m !! "status" = Some (JStr status).
Proof.
  unfold apply_status.
  assert (∀ m' : gmap string json,
            match summary with
            | Some s => if truthy (Some (JStr s)) then <["summary" := JStr s]> m' else m'
            | None => m'
            end !! "status" = m' !! "status") as Hsum.
  { intros m'. destruct summary as [s|]; [|done].
    destruct (truthy _); [by rewrite lookup_insert_ne|done]. }
  destruct error as [e|]; [destruct (truthy _)|].
  - by rewrite lookup_insert_ne, Hsum, lookup_insert_eq.
  - by rewrite lookup_delete_ne, Hsum, lookup_insert_eq.
  - by rewrite lookup_delete_ne, Hsum, lookup_insert_eq.
Qed.

Lemma apply_status_summary status summary error m :
  apply_status status summary error m !! "summary"
  = match summary with
    | Some s => if String.eqb s "" then m !! "summary" else Some (JStr s)
    | None => m !! "summary"
    end.
Proof.
  unfold apply_status.
  assert (∀ m' : gmap string json,
            match error with
            | Some e => if truthy (Some (JStr e)) then <["error" := JStr e]> m'
                        else delete "error" m'
            | None => delete "error" m'
            end !! "summary" = m' !! "summary") as Herr.
  { intros m'. destruct error as [e|]; [destruct (truthy _)|].
    - by rewrite lookup_insert_ne.
    - by rewrite lookup_delete_ne.
    - by rewrite lookup_delete_ne. }
  rewrite Herr. destruct summary as [s|]; [|by rewrite lookup_insert_ne].
  simpl. destruct (String.eqb s ""); simpl.
  - by rewrite lookup_insert_ne.
  - by rewrite lookup_insert_eq.
Qed.

Lemma apply_status_error status summary error m :
  apply_status status summary error m !! "error"
  = match error with
    | Some e => if String.eqb e "" then None else Some (JStr e)
    | None => None
    end.
Proof.
  unfold apply_status. destruct error as [e|]; [|by rewrite lookup_delete_eq].
  simpl. destruct (String.eqb e ""); simpl.
  - by rewrite lookup_delete_eq.
  - by rewrite lookup_insert_eq.
Qed.

(** The keys the projection of lines 111-152 (and 212-231) copies. *)
Lemma canonical_fields_eq :
  canonical_fields
  = ["id"; "category"; "description"; "steps"; "status"; "skipTests"; "images";
     "imagePaths"; "startedAt"; "summary"; "model"; "thinkingLevel"; "error";
     "worktreePath"; "branchName"].
Proof. done. Qed.

(** C8 (as amended).  If the loaded backlog has a record with the given
    id, first at position [i], and the feature list can be written, then
    [updateFeatureStatus] returns and a following load yields a backlog of
    the same length in which the record at [i] has the new status, has the
    given summary when one is given and is not empty (its old summary
    otherwise), and has the given error when one is given and is not empty
    (no error otherwise); every other canonical field of that record, and
    every canonical field of every other record, is as it was loaded, and
    no record has a field outside the canonical ones. *)
Theorem C8_update_then_load
    now now' featureId status summary error w before i m :
  run (loadFeatures now) w = (Return before, w) →
  Array_find (has_id featureId) before = Return (Some (i, JObj m)) →
  writable (feature_list w) = true →
  ∃ w' after,
    run (updateFeatureStatus now featureId status summary error) w = (Return tt, w')
    ∧ run (loadFeatures now') w' = (Return after, w')
    ∧ length after = length before
    ∧ (∃ m', after !! i = Some (JObj m')
         ∧ m' !! "id" = Some (JStr featureId)
         ∧ m' !! "status" = Some (JStr status)
         ∧ m' !! "summary" = match summary with
                             | Some s => if String.eqb s "" then m !! "summary"
                                         else Some (JStr s)
                             | None => m !! "summary"
                             end
         ∧ m' !! "error" = match error with
                           | Some e => if String.eqb e "" then None else Some (JStr e)
                           | None => None
                           end
         ∧ ∀ k, k ≠ "status" → k ≠ "summary" → k ≠ "error" →
             m' !! k = if decide (k ∈ canonical_fields) then m !! k else None)
    ∧ (∀ j mj, j ≠ i → before !! j = Some (JObj mj) →
         ∃ mj', after !! j = Some (JObj mj')
           ∧ ∀ k, mj' !! k = if decide (k ∈ canonical_fields) then mj !! k else None).
Proof.
  intros Hload Hfind Hw.
  rewrite loadFeatures_run in Hload. injection Hload as <-.
  pose proof (Array_find_found _ _ _ _ Hfind) as (Hi & m0 & [= <-] & Hid).
  set (before := loaded now (feature_list w)) in *.
  set (patched := <[i := JObj (apply_status status summary error m)]> before).
  assert (∀ f, f ∈ patched → truthy (props f "id") = true) as Htruthy.
  { intros f [->|Hf]%elem_of_patched; [|by eapply loaded_truthy_id].
    unfold props. simpl. rewrite apply_status_other by done.
    by apply (loaded_truthy_id now (feature_list w) (JObj m)), list_elem_of_lookup_2 with i. }
  eexists _, ((JObj ∘ saved) <$> patched). split_and!.
  - by apply updateFeatureStatus_found.
  - rewrite loadFeatures_run. by rewrite reload_saved.
  - subst patched. by rewrite length_fmap, length_insert.
  - exists (saved (JObj (apply_status status summary error m))). split_and!.
    + rewrite list_lookup_fmap. subst patched.
      by rewrite list_lookup_insert_eq by (by eapply lookup_lt_Some).
    + rewrite saved_canonical by apply id_canonical. unfold props. simpl.
      by rewrite apply_status_other.
    + rewrite saved_canonical by (by apply (bool_decide_unpack _); vm_compute).
      apply apply_status_status.
    + rewrite saved_canonical by (by apply (bool_decide_unpack _); vm_compute).
      apply apply_status_summary.
    + rewrite saved_canonical by (by apply (bool_decide_unpack _); vm_compute).
      apply apply_status_error.
    + intros k H1 H2 H3. rewrite saved_lookup. unfold props. simpl.
      by rewrite apply_status_other.
  - intros j mj Hji Hj. exists (saved (JObj mj)). split.
    + rewrite list_lookup_fmap. subst patched.
      by rewrite list_lookup_insert_ne, Hj by done.
    + intros k. by rewrite saved_lookup.
Qed.

Lemma C8_witness :
  let before := [JObj (work_item "a" "backlog"); JObj (work_item "b" "in_progress")] in
  let w := on_disk (Some (Doc (JArr before))) None in
  ∃ w' after m',
    run (updateFeatureStatus (clock 0) "b" "verified" (Some "all steps done") None) w
    = (Return tt, w')
    ∧ run (loadFeatures (clock 1)) w' = (Return after, w')
    ∧ after !! 1 = Some (JObj m')
    ∧ m' !! "status" = Some (JStr "verified")
    ∧ m' !! "summary" = Some (JStr "all steps done").
Proof.
  intros before w.
  destruct (C8_update_then_load (clock 0) (clock 1) "b" "verified"
              (Some "all steps done") None w before 1 (work_item "b" "in_progress"))
    as (w' & after & Hrun & Hload & _ & (m' & Hm' & _ & Hst & Hsum & _) & _).
  - vm_compute. reflexivity.
  - vm_compute. reflexivity.
  - reflexivity.
  - exists w', after, m'. repeat split; assumption.
Defined.

(** A record with a field outside the canonical ones loses it: after the
    update the reloaded record has no [priority]. *)
Lemma C8_counterexample_extra_field_is_dropped :
  let item := <["priority" := JNum 1]> (work_item "a" "backlog") in
  let w := on_disk (Some (Doc (JArr [JObj item]))) None in
  let w' := (run (updateFeatureStatus (clock 0) "a" "verified" None None) w).2 in
  run (loadFeatures (clock 0)) w = (Return [JObj item], w)
  ∧ item !! "priority" = Some (JNum 1)
  ∧ run (updateFeatureStatus (clock 0) "a" "verified" None None) w = (Return tt, w')
  ∧ run (loadFeatures (clock 1)) w' = (Return [JObj (work_item "a" "verified")], w')
  ∧ work_item "a" "verified" !! "priority" = None.
Proof. repeat split; vm_compute; reflexivity. Qed.

(** ** [updateFeatureWorktree] *)

Lemma updateFeatureWorktree_run now featureId worktreePath branchName w :
  run (updateFeatureWorktree now featureId worktreePath branchName) w =
  let features := loaded now (feature_list w) in
  if decide (length features = 0) then (Return tt, w)
  else
    match Array_find (has_id featureId) features with
    | Throw e => (Throw e, w)
    | Return None => (Return tt, w)
    | Return (Some (i, feature)) =>
        match on_object (apply_worktree worktreePath branchName) feature with
        | Throw e => (Throw e, w)
        | Return feature' =>
            match Array_map (λ _, featureData) (<[i := feature']> features) with
            | Throw e => (Throw e, w)
            | Return toSave => run (writeFile featuresPath (JSON_stringify toSave)) w
            end
        end
    end.
Proof.
  unfold updateFeatureWorktree.
  rewrite run_bind, loadFeatures_run. cbv zeta.
  destruct (decide (length (loaded now (feature_list w)) = 0)); [done|].
  rewrite run_bind, run_lift.
  destruct (Array_find _ _) as [[[i feature]|]|e]; [|done|done].
  rewrite run_bind, run_lift.
  destruct (on_object _ feature) as [feature'|e]; [|done].
  rewrite run_bind, run_lift.
  by destruct (Array_map _ _).
Qed.

Lemma updateFeatureWorktree_found now featureId worktreePath branchName w i m :
  Array_find (has_id featureId) (loaded now (feature_list w)) = Return (Some (i, JObj m)) →
  writable (feature_list w) = true →
  run (updateFeatureWorktree now featureId worktreePath branchName) w
  = (Return tt,
     store featuresPath
       (Doc (JArr ((JObj ∘ saved)
                   <$> <[i := JObj (apply_worktree worktreePath branchName m)]>
                         (loaded now (feature_list w)))))
       w).
Proof.
  intros Hfind Hw. rewrite updateFeatureWorktree_run. cbv zeta.
  pose proof (Array_find_found _ _ _ _ Hfind) as [Hi _].
  rewrite decide_False by (apply lookup_lt_Some in Hi; lia).
  rewrite Hfind. simpl.
  destruct (save_patched (loaded now (feature_list w)) i
              (JObj (apply_worktree worktreePath branchName m))) as (toSave & -> & HtoSave);
    [by intros f ?%loaded_not_null|done|].
  unfold writeFile. simpl. by rewrite Hw, HtoSave.
Qed.

Lemma apply_worktree_other worktreePath branchName m k :
  k ≠ "worktreePath" → k ≠ "branchName" →
  apply_worktree worktreePath branchName m !! k = m !! k.
Proof.
  intros H1 H2. unfold apply_worktree. destruct (truthy _).
  - by rewrite !lookup_insert_ne.
  - by rewrite !lookup_delete_ne.
Qed.

Lemma apply_worktree_set p branchName m :
  p ≠ "" →
  apply_worktree (Some p) branchName m !! "worktreePath" = Some (JStr p)
  ∧ apply_worktree (Some p) branchName m !! "branchName" = Some (of_nullable branchName).
Proof.
  intros Hp. unfold apply_worktree. simpl.
  destruct (String.eqb_spec p "") as [->|_]; [done|]. simpl.
  by rewrite lookup_insert_eq, lookup_insert_ne, lookup_insert_eq.
Qed.

Lemma apply_worktree_clear worktreePath branchName m :
  worktreePath = None ∨ worktreePath = Some "" →
  apply_worktree worktreePath branchName m !! "worktreePath" = None
  ∧ apply_worktree worktreePath branchName m !! "branchName" = None.
Proof.
  intros [->| ->]; unfold apply_worktree; simpl;
    by rewrite lookup_delete_eq, lookup_delete_ne, lookup_delete_eq.
Qed.

Lemma apply_worktree_together worktreePath branchName m :
  is_Some (apply_worktree worktreePath branchName m !! "worktreePath")
  ↔ is_Some (apply_worktree worktreePath branchName m !! "branchName").
Proof.
  destruct worktreePath as [p|].
  - destruct (String.eqb_spec p "") as [->|Hp].
    + destruct (apply_worktree_clear (Some "") branchName m) as [-> ->]; [by right|done].
    + destruct (apply_worktree_set p branchName m Hp) as [-> ->].
      split; intros _; by eexists.
  - destruct (apply_worktree_clear None branchName m) as [-> ->]; [by left|done].
Qed.

Lemma worktreePath_canonical : "worktreePath" ∈ canonical_fields.
Proof. by apply (bool_decide_unpack _); vm_compute. Qed.

Lemma branchName_canonical : "branchName" ∈ canonical_fields.
Proof. by apply (bool_decide_unpack _); vm_compute. Qed.

(** One call that finds its record: what is written, and what the next
    call will load and find. *)
Lemma updateFeatureWorktree_spec now featureId worktreePath branchName w i m :
  Array_find (has_id featureId) (loaded now (feature_list w)) = Return (Some (i, JObj m)) →
  writable (feature_list w) = true →
  let r := saved (JObj (apply_worktree worktreePath branchName m)) in
  ∃ records,
    run (updateFeatureWorktree now featureId worktreePath branchName) w
    = (Return tt, store featuresPath (Doc (JArr records)) w)
    ∧ records !! i = Some (JObj r)
    ∧ r !! "id" = Some (JStr featureId)
    ∧ (∀ now', loaded now' (feature_list (store featuresPath (Doc (JArr records)) w))
               = records)
    ∧ Array_find (has_id featureId) records = Return (Some (i, JObj r)).
Proof.
  intros Hfind Hw r.
  pose proof (Array_find_found _ _ _ _ Hfind) as (Hi & m0 & [= <-] & Hid).
  set (before := loaded now (feature_list w)) in *.
  set (patched := <[i := JObj (apply_worktree worktreePath branchName m)]> before).
  assert (patched !! i = Some (JObj (apply_worktree worktreePath branchName m))) as Hpi.
  { subst patched. by rewrite list_lookup_insert_eq by (by eapply lookup_lt_Some). }
  assert (∀ j g g', before !! j = Some g → patched !! j = Some g' →
            g' ≠ JNull ∧ props g' "id" = props g "id") as Hids.
  { intros j g g' Hg Hg'. destruct (decide (j = i)) as [->|Hne].
    - rewrite Hpi in Hg'. rewrite Hi in Hg. simplify_eq. split; [done|].
      unfold props. simpl. by rewrite apply_worktree_other.
    - subst patched. rewrite list_lookup_insert_ne in Hg' by done. simplify_eq.
      split; [|done]. by eapply (loaded_not_null now (feature_list w)), list_elem_of_lookup_2. }
  assert (∀ f, f ∈ patched → truthy (props f "id") = true) as Htruthy.
  { intros f (j & Hj)%list_elem_of_lookup_1.
    destruct (lookup_lt_is_Some_2 before j) as [g Hg].
    { apply lookup_lt_Some in Hj. subst patched. by rewrite length_insert in Hj. }
    destruct (Hids j g f Hg Hj) as [_ ->].
    by eapply (loaded_truthy_id now (feature_list w)), list_elem_of_lookup_2. }
  exists ((JObj ∘ saved) <$> patched). split_and!.
  - by apply updateFeatureWorktree_found.
  - by rewrite list_lookup_fmap, Hpi.
  - subst r. rewrite saved_canonical by apply id_canonical. unfold props. simpl.
    by rewrite apply_worktree_other.
  - intros now'. by apply reload_saved.
  - destruct (Array_find_same_ids featureId before ((JObj ∘ saved) <$> patched) i (JObj m))
      as (f' & Hf' & Hfind'); [done| | |].
    + subst patched. by rewrite length_fmap, length_insert.
    + intros j g g' Hg Hg'. rewrite list_lookup_fmap in Hg'.
      destruct (patched !! j) as [pj|] eqn:Hpj; simplify_eq/=.
      split; [done|]. destruct (Hids j g pj Hg Hpj) as [_ <-].
      unfold props at 1. simpl. by rewrite saved_canonical by apply id_canonical.
    + rewrite list_lookup_fmap, Hpi in Hf'. simpl in Hf'. by simplify_eq.
Qed.

(** C7 (as amended).  If the collection [loadFeatures] returns has a
    record with the given id, first at position [i], and the feature list
    can be written, then [updateFeatureWorktree] returns after writing a
    collection whose record at [i] has the key [worktreePath] exactly
    when it has the key [branchName].  When the path is neither [null]
    nor empty, both are set: [worktreePath] to the path, [branchName] to
    the branch given, which is the value [null] when [null] was given.
    When the path is [null] or empty, both are absent.  So unless a path
    was given with a [null] branch, the record also has a value other
    than [null] for one exactly when it has one for the other.  A
    following call with [null] for both leaves both fields absent from
    the persisted record. *)
Theorem C7_worktree_fields_go_together
    now now' featureId worktreePath branchName w before i m :
  run (loadFeatures now) w = (Return before, w) →
  Array_find (has_id featureId) before = Return (Some (i, JObj m)) →
  writable (feature_list w) = true →
  ∃ w1 records r,
    run (updateFeatureWorktree now featureId worktreePath branchName) w = (Return tt, w1)
    ∧ data (feature_list w1) = Some (Doc (JArr records))
    ∧ records !! i = Some (JObj r)
    ∧ r !! "id" = Some (JStr featureId)
    ∧ (is_Some (r !! "worktreePath") ↔ is_Some (r !! "branchName"))
    ∧ (∀ p, worktreePath = Some p → p ≠ "" →
         r !! "worktreePath" = Some (JStr p)
         ∧ r !! "branchName" = Some (of_nullable branchName)
         ∧ ∀ b, branchName = Some b → r !! "branchName" = Some (JStr b))
    ∧ (worktreePath = None ∨ worktreePath = Some "" →
         r !! "worktreePath" = None ∧ r !! "branchName" = None)
    ∧ (worktreePath = None ∨ worktreePath = Some "" ∨ branchName ≠ None →
         (non_null (r !! "worktreePath") ↔ non_null (r !! "branchName")))
    ∧ ∃ w2 records2 r2,
        run (updateFeatureWorktree now' featureId None None) w1 = (Return tt, w2)
        ∧ data (feature_list w2) = Some (Doc (JArr records2))
        ∧ records2 !! i = Some (JObj r2)
        ∧ r2 !! "id" = Some (JStr featureId)
        ∧ r2 !! "worktreePath" = None
        ∧ r2 !! "branchName" = None.
Proof.
  intros Hload Hfind Hw.
  rewrite loadFeatures_run in Hload. injection Hload as <-.
  destruct (updateFeatureWorktree_spec now featureId worktreePath branchName w i m Hfind Hw)
    as (records & Hrun & Hi & Hid & Hreload & Hfind1).
  set (r := saved (JObj (apply_worktree worktreePath branchName m))) in *.
  set (w1 := store featuresPath (Doc (JArr records)) w) in *.
  assert (∀ p, worktreePath = Some p → p ≠ "" →
            r !! "worktreePath" = Some (JStr p)
            ∧ r !! "branchName" = Some (of_nullable branchName)) as Hset.
  { intros p -> Hp. subst r. rewrite !saved_canonical
      by first [apply worktreePath_canonical|apply branchName_canonical].
    by apply apply_worktree_set. }
  assert (worktreePath = None ∨ worktreePath = Some "" →
          r !! "worktreePath" = None ∧ r !! "branchName" = None) as Hclear.
  { intros Hc. subst r. rewrite !saved_canonical
      by first [apply worktreePath_canonical|apply branchName_canonical].
    by apply apply_worktree_clear. }
  exists w1, records, r. split_and!; try done.
  - subst r. rewrite !saved_canonical
      by first [apply worktreePath_canonical|apply branchName_canonical].
    apply apply_worktree_together.
  - intros p Hp Hne. destruct (Hset p Hp Hne) as [Hwt Hbn].
    split_and!; [done|done|]. intros b ->. exact Hbn.
  - intros Hcase.
    assert (worktreePath = None ∨ worktreePath = Some ""
            ∨ ∃ p b, worktreePath = Some p ∧ p ≠ "" ∧ branchName = Some b)
      as [Hc|[Hc|(p & b & Hp & Hne & Hb)]].
    { destruct worktreePath as [p|]; [|by left].
      destruct (String.eqb_spec p "") as [->|Hne]; [right; by left|].
      destruct branchName as [b|]; [right; right; by exists p, b|].
      destruct Hcase as [?|[[= ?]|?]]; done. }
    + destruct Hclear as [-> ->]; [by left|].
      split; intros (j & [= ] & _).
    + destruct Hclear as [-> ->]; [by right|].
      split; intros (j & [= ] & _).
    + destruct (Hset p Hp Hne) as [-> ->]. rewrite Hb. simpl.
      split; intros _; eexists; (split; [reflexivity|discriminate]).
  - destruct (updateFeatureWorktree_spec now' featureId None None w1 i r)
      as (records2 & Hrun2 & Hi2 & Hid2 & _ & _); [by rewrite Hreload|done|].
    eexists _, records2, _. split_and!; try done.
    + rewrite saved_canonical by apply worktreePath_canonical.
      apply apply_worktree_clear. by left.
    + rewrite saved_canonical by apply branchName_canonical.
      apply apply_worktree_clear. by left.
Qed.

Lemma C7_witness :
  let before := [JObj (work_item "a" "backlog"); JObj (work_item "b" "in_progress")] in
  let w := on_disk (Some (Doc (JArr before))) None in
  ∃ w1 records r,
    run (updateFeatureWorktree (clock 0) "b" (Some "/tmp/wt-b") (Some "feature/b")) w
    = (Return tt, w1)
    ∧ data (feature_list w1) = Some (Doc (JArr records))
    ∧ records !! 1 = Some (JObj r)
    ∧ r !! "worktreePath" = Some (JStr "/tmp/wt-b")
    ∧ r !! "branchName" = Some (JStr "feature/b").
Proof.
  intros before w.
  destruct (C7_worktree_fields_go_together (clock 0) (clock 1) "b"
              (Some "/tmp/wt-b") (Some "feature/b") w before 1 (work_item "b" "in_progress"))
    as (w1 & records & r & Hrun & Hdata & Hr & _ & _ & Hset & _).
  - vm_compute. reflexivity.
  - vm_compute. reflexivity.
  - reflexivity.
  - exists w1, records, r.
    destruct (Hset "/tmp/wt-b" eq_refl) as (Hp & _ & Hb); [discriminate|].
    repeat split; try assumption. exact (Hb "feature/b" eq_refl).
Defined.

(** An empty path is not [null], and the call clears both fields instead
    of setting them.  A path given with a [null] branch is stored next
    to [branchName: null]. *)
Lemma C7_counterexample_empty_path_clears :
  let item := <["branchName" := JStr "feature/a"]>
                (<["worktreePath" := JStr "/tmp/wt-a"]> (work_item "a" "in_progress")) in
  let w := on_disk (Some (Doc (JArr [JObj item]))) None in
  run (updateFeatureWorktree (clock 0) "a" (Some "") (Some "feature/a2")) w
  = (Return tt,
     store featuresPath (Doc (JArr [JObj (work_item "a" "in_progress")])) w)
  ∧ work_item "a" "in_progress" !! "worktreePath" = None
  ∧ work_item "a" "in_progress" !! "branchName" = None
  ∧ run (updateFeatureWorktree (clock 0) "a" (Some "/tmp/wt-a2") None) w
    = (Return tt,
       store featuresPath
         (Doc (JArr [JObj (<["branchName" := JNull]>
                             (<["worktreePath" := JStr "/tmp/wt-a2"]>
                                (work_item "a" "in_progress")))])) w).
Proof. repeat split; vm_compute; reflexivity. Qed.

(** ** [spawnJSONLProcess] *)

Lemma append_nil_r (s : string) : s +:+ "" = s.
Proof.
  induction s as [|c s IH]; [done|].
  change (String c (s +:+ "") = String c s). by rewrite IH.
Qed.

Lemma append_assoc (s1 s2 s3 : string) : (s1 +:+ s2) +:+ s3 = s1 +:+ (s2 +:+ s3).
Proof.
  induction s1 as [|c s1 IH]; [done|].
  change (String c ((s1 +:+ s2) +:+ s3) = String c (s1 +:+ (s2 +:+ s3))).
  by rewrite IH.
Qed.

Lemma lines_of_app pre post : lines_of (pre ++ post) = (lines_of pre ++ lines_of post)%list.
Proof.
  induction pre as [|ev pre IH]; [done|].
  destruct ev; simpl; by rewrite IH.
Qed.

Lemma in_the_loop_app pre post :
  forallb in_the_loop (pre ++ post) = true ↔
  forallb in_the_loop pre = true ∧ forallb in_the_loop post = true.
Proof. rewrite forallb_app. apply andb_true_iff. Qed.

Lemma lines_of_stdout (lines : list string) : lines_of (StdoutLine <$> lines) = lines.
Proof.
  induction lines as [|line lines IH]; [done|].
  rewrite fmap_cons. cbn [lines_of]. by rewrite IH.
Qed.

Lemma stdout_lines_in_the_loop (lines : list string) :
  forallb in_the_loop (StdoutLine <$> lines) = true.
Proof.
  induction lines as [|line lines IH]; [done|].
  rewrite fmap_cons. cbn [forallb in_the_loop]. exact IH.
Qed.

Lemma error_record_fields msg :
  error_record msg = JObj {[ "type" := JStr "error"; "error" := JStr msg ]}.
Proof. reflexivity. Qed.

Lemma ascii_space_is_blank line :
  forallb ws1 (String.list_ascii_of_string line) = true → is_blank line = true.
Proof.
  induction line as [|c line IH]; [done|].
  simpl. intros [Hc Hrest]%andb_true_iff. rewrite Hc. by apply IH.
Qed.

Section Stream.

Variable JSON_parse_line : string → option json.

Lemma read_lines_app pre post :
  read_lines JSON_parse_line (pre ++ post)
  = (read_lines JSON_parse_line pre ++ read_lines JSON_parse_line post)%list.
Proof.
  induction pre as [|line pre IH]; [done|].
  simpl. by rewrite IH, app_assoc.
Qed.

Lemma read_lines_cons line post :
  read_lines JSON_parse_line (line :: post)
  = (on_line JSON_parse_line line ++ read_lines JSON_parse_line post)%list.
Proof. done. Qed.

Lemma readline_jsonl_example : readline jsonl_example = [line_a; "NOT JSON"; line_b].
Proof. by vm_compute. Qed.

Lemma example_lines_not_blank :
  is_blank line_a = false ∧ is_blank "NOT JSON" = false ∧ is_blank line_b = false.
Proof. by vm_compute. Qed.

(** The read loop: as long as stdout neither ends nor fails and the child
    emits no [error], the generator stays in the loop, has yielded the
    records of the lines so far and has gathered the stderr text so far;
    an [exit] in between changes nothing. *)
Lemma run_in_the_loop pre ys err :
  forallb in_the_loop pre = true →
  foldl (on_stream_event JSON_parse_line) (Generator ys err Reading) pre
  = Generator (ys ++ read_lines JSON_parse_line (lines_of pre)) (err +:+ stderr_in pre)
              Reading.
Proof.
  revert ys err. induction pre as [|ev pre IH]; intros ys err Hpre.
  - simpl. by rewrite app_nil_r, append_nil_r.
  - simpl in Hpre. apply andb_true_iff in Hpre as [Hev Hpre].
    destruct ev; try discriminate Hev; simpl foldl;
      unfold on_stream_event at 2; cbn [at_phase yielded stderrOutput];
      rewrite (IH _ _ Hpre); simpl.
    + by rewrite <- app_assoc.
    + by rewrite append_assoc.
    + done.
Qed.

(** After the loop: stderr text is still gathered while the generator
    waits for the child. *)
Lemma run_waiting mid ys err :
  forallb is_stderr mid = true →
  foldl (on_stream_event JSON_parse_line) (Generator ys err Waiting) mid
  = Generator ys (err +:+ stderr_in mid) Waiting.
Proof.
  revert err. induction mid as [|ev mid IH]; intros err Hmid.
  - simpl. by rewrite append_nil_r.
  - simpl in Hmid. apply andb_true_iff in Hmid as [Hev Hmid].
    destruct ev; try discriminate Hev. simpl foldl.
    unfold on_stream_event at 2. cbn [at_phase yielded stderrOutput].
    rewrite (IH _ Hmid). simpl. by rewrite append_assoc.
Qed.

(** Once the generator is done, nothing that happens reaches it. *)
Lemma run_ended post g c :
  at_phase g = Ended c →
  foldl (on_stream_event JSON_parse_line) g post = g.
Proof.
  intros Hg. induction post as [|ev post IH]; [done|].
  simpl. unfold on_stream_event at 2. by rewrite Hg.
Qed.

(** While stdout is being read, the stream is the records of the lines
    read so far. *)
Lemma still_reading pre :
  forallb in_the_loop pre = true →
  spawnJSONLProcess JSON_parse_line pre
  = (read_lines JSON_parse_line (lines_of pre), Pending).
Proof.
  intros Hpre. unfold spawnJSONLProcess. by rewrite (run_in_the_loop _ _ _ Hpre).
Qed.

(** The generator from its start to the moment it waits for the child. *)
Lemma run_to_waiting pre mid :
  forallb in_the_loop pre = true →
  forallb is_stderr mid = true →
  foldl (on_stream_event JSON_parse_line) (Generator [] "" Reading)
        (pre ++ StdoutClosed :: mid)
  = Generator (read_lines JSON_parse_line (lines_of pre))
              (stderr_in pre +:+ stderr_in mid) Waiting.
Proof.
  intros Hpre Hmid.
  rewrite foldl_app, (run_in_the_loop _ _ _ Hpre). cbn [foldl].
  change (on_stream_event JSON_parse_line
            (Generator ([] ++ read_lines JSON_parse_line (lines_of pre))
                       ("" +:+ stderr_in pre) Reading) StdoutClosed)
    with (Generator (read_lines JSON_parse_line (lines_of pre)) (stderr_in pre) Waiting).
  apply (run_waiting _ _ _ Hmid).
Qed.

Lemma run_one_more (events post : list stream_event) (ev : stream_event) g :
  foldl (on_stream_event JSON_parse_line) (Generator [] "" Reading) events = g →
  foldl (on_stream_event JSON_parse_line) (Generator [] "" Reading)
        (events ++ ev :: post)
  = foldl (on_stream_event JSON_parse_line) (on_stream_event JSON_parse_line g ev) post.
Proof. intros <-. by rewrite foldl_app. Qed.

(** An [exit] that the generator hears: delivered after stdout has ended. *)
Lemma exit_after_stdout_end pre mid post code :
  forallb in_the_loop pre = true →
  forallb is_stderr mid = true →
  spawnJSONLProcess JSON_parse_line (pre ++ StdoutClosed :: mid ++ ChildExited code :: post)
  = ((read_lines JSON_parse_line (lines_of pre)
      ++ on_exit (stderr_in pre +:+ stderr_in mid) code)%list,
     Finished).
Proof.
  intros Hpre Hmid. unfold spawnJSONLProcess.
  rewrite app_comm_cons, app_assoc.
  rewrite (run_one_more _ _ _ _ (run_to_waiting _ _ Hpre Hmid)).
  by rewrite (run_ended post _ Finished).
Qed.

Lemma on_exit_failed err c :
  c ≠ 0%Z →
  on_exit err (Some c)
  = [JObj {[ "type" := JStr "error";
             "error" := JStr (if String.eqb err "" then "Process exited with code " +:+ pretty c
                              else err) ]}].
Proof.
  intros Hc. unfold on_exit. destruct (Z.eqb_spec c 0) as [->|_]; [done|]. simpl.
  rewrite error_record_fields. by destruct (String.eqb err "").
Qed.

End Stream.

(** C6.  In the stream read from stdout, wherever a line stands: a blank
    line contributes no record, and the empty line and every line made of
    spaces, tabs and the like are blank; a line that [JSON.parse] rejects
    contributes one record [{ type: "error", error: "Failed to parse
    output: <line>" }], and the lines after it are still read; a line
    that parses contributes its value.  With a [JSON.parse] that accepts
    the first and third line of the three-line example and rejects
    [NOT JSON], the stream is exactly three records, in the order of the
    lines, the same with blank lines put between them, and the same for
    the whole run of a process whose exit with code 0 is heard when
    stdout has ended.  For any lines, the records the generator has
    yielded while it reads, and by the end of such a run, are the
    records of the lines. *)
Theorem C6_malformed_lines_do_not_end_the_stream
    (JSON_parse_line : string → option json) (va vb : json) :
  JSON_parse_line line_a = Some va →
  JSON_parse_line "NOT JSON" = None →
  JSON_parse_line line_b = Some vb →
  (∀ pre line post, is_blank line = true →
     read_lines JSON_parse_line (pre ++ line :: post)
     = (read_lines JSON_parse_line pre ++ read_lines JSON_parse_line post)%list)
  ∧ (∀ line, forallb ws1 (String.list_ascii_of_string line) = true → is_blank line = true)
  ∧ (∀ pre line post, is_blank line = false → JSON_parse_line line = None →
     read_lines JSON_parse_line (pre ++ line :: post)
     = (read_lines JSON_parse_line pre
        ++ JObj {[ "type" := JStr "error";
                   "error" := JStr ("Failed to parse output: " +:+ line) ]}
        :: read_lines JSON_parse_line post)%list)
  ∧ (∀ pre line v post, is_blank line = false → JSON_parse_line line = Some v →
     read_lines JSON_parse_line (pre ++ line :: post)
     = (read_lines JSON_parse_line pre ++ v :: read_lines JSON_parse_line post)%list)
  ∧ read_lines JSON_parse_line (readline jsonl_example)
    = [va;
       JObj {[ "type" := JStr "error"; "error" := JStr "Failed to parse output: NOT JSON" ]};
       vb]
  ∧ read_lines JSON_parse_line [""; line_a; "   "; "NOT JSON"; tab +:+ " "; line_b; ""]
    = [va;
       JObj {[ "type" := JStr "error"; "error" := JStr "Failed to parse output: NOT JSON" ]};
       vb]
  ∧ spawnJSONLProcess JSON_parse_line
      ((StdoutLine <$> readline jsonl_example) ++ [StdoutClosed; ChildExited (Some 0%Z)])
    = ([va;
        JObj {[ "type" := JStr "error"; "error" := JStr "Failed to parse output: NOT JSON" ]};
        vb],
       Finished)
  ∧ ∀ lines,
      spawnJSONLProcess JSON_parse_line (StdoutLine <$> lines)
      = (read_lines JSON_parse_line lines, Pending)
      ∧ spawnJSONLProcess JSON_parse_line
          ((StdoutLine <$> lines) ++ [StdoutClosed; ChildExited (Some 0%Z)])
        = (read_lines JSON_parse_line lines, Finished).
Proof.
  intros Ha Hbad Hb.
  destruct example_lines_not_blank as (Hba & Hbbad & Hbb).
  assert (read_lines JSON_parse_line [line_a; "NOT JSON"; line_b]
          = [va;
             JObj {[ "type" := JStr "error";
                     "error" := JStr "Failed to parse output: NOT JSON" ]};
             vb]) as Hex.
  { rewrite !read_lines_cons. unfold on_line.
    rewrite Hba, Hbbad, Hbb, Ha, Hbad, Hb. reflexivity. }
  assert (∀ line post, is_blank line = true →
            read_lines JSON_parse_line (line :: post) = read_lines JSON_parse_line post)
    as Hskip.
  { intros line post Hblank. rewrite read_lines_cons. unfold on_line. by rewrite Hblank. }
  split_and!.
  - intros pre line post Hblank. by rewrite read_lines_app, Hskip.
  - apply ascii_space_is_blank.
  - intros pre line post Hblank Hline. rewrite read_lines_app, read_lines_cons.
    unfold on_line. rewrite Hblank, Hline, error_record_fields. reflexivity.
  - intros pre line v post Hblank Hline. rewrite read_lines_app, read_lines_cons.
    unfold on_line. by rewrite Hblank, Hline.
  - rewrite readline_jsonl_example. exact Hex.
  - rewrite (Hskip "") by reflexivity.
    rewrite (read_lines_cons _ line_a). unfold on_line at 1. rewrite Hba, Ha.
    rewrite (Hskip "   ") by reflexivity.
    rewrite (read_lines_cons _ "NOT JSON"). unfold on_line at 1. rewrite Hbbad, Hbad.
    rewrite (Hskip (tab +:+ " ")) by reflexivity.
    rewrite (read_lines_cons _ line_b). unfold on_line at 1. rewrite Hbb, Hb.
    rewrite (Hskip "") by reflexivity. reflexivity.
  - rewrite readline_jsonl_example.
    change ((StdoutLine <$> [line_a; "NOT JSON"; line_b])
            ++ [StdoutClosed; ChildExited (Some 0%Z)])%list
      with ([StdoutLine line_a; StdoutLine "NOT JSON"; StdoutLine line_b]
            ++ StdoutClosed :: [] ++ ChildExited (Some 0%Z) :: [])%list.
    rewrite exit_after_stdout_end by reflexivity.
    change (lines_of [StdoutLine line_a; StdoutLine "NOT JSON"; StdoutLine line_b])
      with [line_a; "NOT JSON"; line_b].
    rewrite Hex. reflexivity.
  - intros lines. split.
    + rewrite still_reading by apply stdout_lines_in_the_loop.
      by rewrite lines_of_stdout.
    + change [StdoutClosed; ChildExited (Some 0%Z)]
        with (StdoutClosed :: [] ++ ChildExited (Some 0%Z) :: [])%list.
      rewrite exit_after_stdout_end by (apply stdout_lines_in_the_loop || reflexivity).
      rewrite lines_of_stdout. simpl. by rewrite app_nil_r.
Qed.

Lemma C6_witness :
  read_lines JsonText.parse (readline jsonl_example)
  = [JObj {[ "a" := JNum 1 ]};
     JObj {[ "type" := JStr "error"; "error" := JStr "Failed to parse output: NOT JSON" ]};
     JObj {[ "b" := JNum 2 ]}].
Proof.
  apply (C6_malformed_lines_do_not_end_the_stream JsonText.parse
           (JObj {[ "a" := JNum 1 ]}) (JObj {[ "b" := JNum 2 ]})).
  - vm_compute. reflexivity.
  - vm_compute. reflexivity.
  - vm_compute. reflexivity.
Defined.

(** C5 (as amended).  Take a run in which stdout is read to its end
    without a read error and without any record, the child emits no
    [error] before that, and the child's [exit] is delivered after stdout
    has ended, while the generator waits for it.  If the exit code is a
    number other than 0, the stream is exactly one record,
    [{ type: "error", error: msg }], where [msg] is the text gathered from
    stderr up to the exit, or [Process exited with code <code>] when that
    text is empty, and the stream has ended.  Delivered the same way, an
    exit code of 0, or [null], adds no record to those read from stdout. *)
Theorem C5_failed_exit_yields_one_error
    (JSON_parse_line : string → option json)
    (pre mid post : list stream_event) (c : Z) :
  forallb in_the_loop pre = true →
  read_lines JSON_parse_line (lines_of pre) = [] →
  forallb is_stderr mid = true →
  c ≠ 0%Z →
  let stderrOutput := stderr_in pre +:+ stderr_in mid in
  spawnJSONLProcess JSON_parse_line (pre ++ StdoutClosed :: mid ++ ChildExited (Some c) :: post)
  = ([JObj {[ "type" := JStr "error";
              "error" := JStr (if String.eqb stderrOutput ""
                               then "Process exited with code " +:+ pretty c
                               else stderrOutput) ]}],
     Finished)
  ∧ ∀ pre' mid' post' code,
      forallb in_the_loop pre' = true →
      forallb is_stderr mid' = true →
      code = Some 0%Z ∨ code = None →
      spawnJSONLProcess JSON_parse_line (pre' ++ StdoutClosed :: mid' ++ ChildExited code :: post')
      = (read_lines JSON_parse_line (lines_of pre'), Finished).
Proof.
  intros Hpre Hnone Hmid Hc stderrOutput. split.
  - rewrite (exit_after_stdout_end _ _ _ _ _ Hpre Hmid), Hnone.
    by rewrite (on_exit_failed _ _ Hc).
  - intros pre' mid' post' code Hpre' Hmid' Hcode.
    rewrite (exit_after_stdout_end _ _ _ _ _ Hpre' Hmid').
    destruct Hcode as [-> | ->]; simpl; by rewrite app_nil_r.
Qed.

Lemma C5_witness :
  spawnJSONLProcess JsonText.parse
    [StdoutLine ""; StderrText "boom: "; StdoutLine "  "; StdoutClosed;
     StderrText "no such tool"; ChildExited (Some 2%Z)]
  = ([JObj {[ "type" := JStr "error"; "error" := JStr "boom: no such tool" ]}], Finished)
  ∧ spawnJSONLProcess JsonText.parse [StdoutClosed; ChildExited (Some 127%Z)]
    = ([JObj {[ "type" := JStr "error"; "error" := JStr "Process exited with code 127" ]}],
       Finished).
Proof.
  split.
  - apply (C5_failed_exit_yields_one_error JsonText.parse
             [StdoutLine ""; StderrText "boom: "; StdoutLine "  "]
             [StderrText "no such tool"] [] 2%Z);
      [reflexivity|reflexivity|reflexivity|discriminate].
  - apply (C5_failed_exit_yields_one_error JsonText.parse [] [] [] 127%Z);
      [reflexivity|reflexivity|reflexivity|discriminate].
Defined.

(** Exits that yield no record, from a child that wrote nothing to
    stdout: a child that is killed, so that its exit code is [null]; a
    child whose exit with code 2 is delivered before stdout has ended,
    so that nothing hears it and the stream does not end; and a child
    that exits with code 2 after a read error on stdout, which ends the
    stream as a failure. *)
Lemma C5_counterexample_exits_that_yield_nothing :
  spawnJSONLProcess JsonText.parse [StderrText "killed"; StdoutClosed; ChildExited None]
  = ([], Finished)
  ∧ spawnJSONLProcess JsonText.parse [StderrText "boom"; ChildExited (Some 2%Z); StdoutClosed]
    = ([], Pending)
  ∧ spawnJSONLProcess JsonText.parse
      [StderrText "boom"; StdoutFailed (Error "EPIPE"); ChildExited (Some 2%Z)]
    = ([], Failed (Error "EPIPE")).
Proof. repeat split; reflexivity. Qed.

(** * Further properties of the store and of the process runner *)

(** ** Loading *)

(** X1.  [loadFeatures] gives up on the whole file for one bad entry: it
    returns the empty collection, without throwing and without writing,
    when the feature list cannot be read, is not JSON, is not an array,
    or is an array with a [null] entry anywhere in it. *)
Theorem load_failure_modes (now : nat → Z) (w : world) :
  (data (feature_list w) = None → run (loadFeatures now) w = (Return [], w))
  ∧ (∀ raw, data (feature_list w) = Some (Garbage raw) →
       run (loadFeatures now) w = (Return [], w))
  ∧ (∀ v, data (feature_list w) = Some (Doc v) → (∀ l, v ≠ JArr l) →
       run (loadFeatures now) w = (Return [], w))
  ∧ (∀ pre post, data (feature_list w) = Some (Doc (JArr (pre ++ JNull :: post)%list)) →
       run (loadFeatures now) w = (Return [], w)).
Proof.
  split_and!.
  - intros Hdata. rewrite loadFeatures_run. unfold loaded. by rewrite Hdata.
  - intros raw Hdata. rewrite loadFeatures_run. unfold loaded. by rewrite Hdata.
  - intros v Hdata Hv. rewrite loadFeatures_run. unfold loaded. rewrite Hdata.
    destruct v as [| | | |l|]; try done. by destruct (Hv l).
  - intros pre post Hdata. rewrite loadFeatures_run. unfold loaded, Array_map.
    rewrite Hdata. simpl. by destruct (Array_map_with_id_null now 0 pre post) as [e ->].
Qed.

Lemma load_failure_modes_witness :
  let w := on_disk (Some (Doc (JArr [JObj (work_item "a" "backlog"); JNull;
                                     JObj (work_item "c" "backlog")]))) None in
  run (loadFeatures (clock 0)) w = (Return [], w).
Proof.
  intros w.
  apply (proj2 (proj2 (proj2 (load_failure_modes (clock 0) w)))
           [JObj (work_item "a" "backlog")] [JObj (work_item "c" "backlog")]).
  reflexivity.
Defined.

(** X2.  When the feature list is an array without [null] entries,
    [loadFeatures] returns one item per entry, in order; an entry that is
    an object comes back with every field other than [id] as it is in the
    file, and comes back unchanged when its [id] is truthy. *)
Theorem load_keeps_records now w (records : list json) :
  data (feature_list w) = Some (Doc (JArr records)) →
  (∀ f, f ∈ records → f ≠ JNull) →
  ∃ items,
    run (loadFeatures now) w = (Return items, w)
    ∧ length items = length records
    ∧ ∀ i m, records !! i = Some (JObj m) →
        ∃ m', items !! i = Some (JObj m')
          ∧ (∀ k, k ≠ "id" → m' !! k = m !! k)
          ∧ (truthy (m !! "id") = true → m' = m).
Proof.
  intros Hdata Hnn.
  destruct (Array_map_with_id_total now 0 records Hnn) as [items Hitems].
  exists items. split_and!.
  - rewrite loadFeatures_run. unfold loaded, Array_map. rewrite Hdata. simpl.
    by rewrite Hitems.
  - by apply Array_map_from_Return in Hitems as [? _].
  - intros i m Hi. apply Array_map_from_Return in Hitems as [_ Hitems].
    destruct (Hitems i (JObj m) Hi) as (g & Hg & Hwith). simpl in Hwith.
    rewrite with_id_run in Hwith by done. injection Hwith as <-.
    eexists. split_and!; [done| |].
    + intros k Hk. simpl. by rewrite lookup_insert_ne.
    + intros Ht. f_equal. unfold ensured_id, props, own_props, spread.
      destruct (m !! "id") as [j|] eqn:Hj; [|done]. rewrite Ht. by apply insert_id.
Qed.

Lemma load_keeps_records_witness :
  let item := <["priority" := JNum 1]> (work_item "a" "backlog") in
  let w := on_disk (Some (Doc (JArr [JObj item; JNum 7]))) None in
  ∃ items, run (loadFeatures (clock 0)) w = (Return items, w)
           ∧ length items = 2 ∧ items !! 0 = Some (JObj item).
Proof.
  intros item w.
  destruct (load_keeps_records (clock 0) w [JObj item; JNum 7])
    as (items & Hrun & Hlen & Hfields).
  - reflexivity.
  - intros f Hf ->. vm_compute in Hf.
    inversion Hf as [|? ? ? Hf1]; subst. inversion Hf1 as [|? ? ? Hf2]; subst.
    inversion Hf2.
  - exists items. split; [exact Hrun|]. split; [exact Hlen|].
    destruct (Hfields 0 item eq_refl) as (m' & Hm' & _ & Hsame).
    rewrite Hm'. f_equal. f_equal. apply Hsame. vm_compute. reflexivity.
Defined.

(** ** [updateFeatureStatus]: the backup, and how a call can fail *)

(** X3.  Whatever the outcome of a call, the backup afterwards holds what the
    feature list held before the call, provided the feature list could
    be read and the backup written; otherwise the backup is left as it
    was.  The call never writes anything else to the backup. *)
Theorem update_status_backup_is_previous_content
    now featureId status summary error w :
  let w' := (run (updateFeatureStatus now featureId status summary error) w).2 in
  (∀ c, data (feature_list w) = Some c → writable (feature_list_backup w) = true →
     data (feature_list_backup w') = Some c)
  ∧ (data (feature_list w) = None ∨ writable (feature_list_backup w) = false →
     feature_list_backup w' = feature_list_backup w).
Proof.
  intros w'.
  assert (feature_list_backup w' = feature_list_backup (backed_up w)) as ->.
  { subst w'.
    destruct (updateFeatureStatus_cases now featureId status summary error w)
      as [[e He]|[[_ He]|(i & m & _ & _ & _ & _ & He)]];
      cbv zeta in He; by rewrite He. }
  split.
  - intros c Hc Hw. by apply backup_read_is_the_fresh_copy.
  - intros Hno. unfold backed_up.
    destruct (data (feature_list w)) as [c|] eqn:Hc; [|done].
    destruct Hno as [?| ->]; done.
Qed.

Lemma update_status_backup_witness :
  let before := Doc (JArr [JObj (work_item "a" "backlog")]) in
  let stale := Doc (JArr [JObj (work_item "old" "verified")]) in
  let w := on_disk (Some before) (Some stale) in
  data (feature_list_backup
          (run (updateFeatureStatus (clock 0) "a" "verified" None None) w).2)
  = Some before.
Proof.
  intros before stale w.
  apply (proj1 (update_status_backup_is_previous_content
                  (clock 0) "a" "verified" None None w) before);
    reflexivity.
Defined.

Lemma Array_find_has_id_throw featureId i (l : list json) e :
  Array_find_from (has_id featureId) i l = Throw e →
  e = TypeError "Cannot read properties of null (reading 'id')" ∧ JNull ∈ l.
Proof.
  revert i. induction l as [|f l IH]; intros i; simpl; [done|].
  destruct (has_id featureId f) as [[|]|e'] eqn:Hf; simpl; [done| |].
  - intros [-> ?]%IH. split; [done|by right].
  - intros [= <-]. destruct f; simpl in Hf; try done.
    injection Hf as <-. split; [done|by left].
Qed.

Lemma featureData_throw f e :
  featureData f = Throw e →
  e = TypeError "Cannot read properties of null (reading 'id')" ∧ f = JNull.
Proof.
  intros He.
  assert (f = JNull) as ->.
  { destruct f as [| | | | |]; [reflexivity|..]; exfalso;
      (edestruct featureData_run as (D & HD & _);
       [|rewrite HD in He; discriminate He]); discriminate. }
  split; [|reflexivity]. vm_compute in He. injection He as <-. reflexivity.
Qed.

Lemma Array_map_featureData_throw i (l : list json) e :
  Array_map_from (λ _, featureData) i l = Throw e →
  e = TypeError "Cannot read properties of null (reading 'id')" ∧ JNull ∈ l.
Proof.
  revert i. induction l as [|f l IH]; intros i; simpl; [done|].
  unfold mbind, outcome_bind.
  destruct (featureData f) as [D|e'] eqn:Hf.
  - destruct (Array_map_from _ (S i) l) as [Ds|e'] eqn:Hl; [done|].
    intros [= <-]. apply IH in Hl as [-> ?]. split; [done|by right].
  - intros [= <-]. apply featureData_throw in Hf as [-> ->]. split; [done|by left].
Qed.

(** X4.  The ways a call of [updateFeatureStatus] can fail.  It returns, or
    throws the [TypeError] of reading [id] off a [null] entry, or throws
    the error of the failed write to a feature list that cannot be
    written; in both failures the feature list is as before.  The two
    [CRITICAL] errors of lines 67 and 156 are never thrown.  When
    [loadFeatures] returns a non-empty collection, the failed write is
    the only failure there is. *)
Theorem update_status_failures now featureId status summary error w :
  let call := run (updateFeatureStatus now featureId status summary error) w in
  (call.1 = Return tt
   ∨ (call.1 = Throw (TypeError "Cannot read properties of null (reading 'id')")
      ∧ feature_list call.2 = feature_list w)
   ∨ (call.1 = Throw (IOError "EACCES: permission denied")
      ∧ writable (feature_list w) = false
      ∧ feature_list call.2 = feature_list w))
  ∧ call.1 ≠ Throw empty_save_error
  ∧ (∀ before, run (loadFeatures now) w = (Return before, w) → before ≠ [] →
       call.1 ≠ Throw (TypeError "Cannot read properties of null (reading 'id')")).
Proof.
  intros call.
  assert (Hrun := updateFeatureStatus_run now featureId status summary error w).
  cbv zeta in Hrun. fold call in Hrun.
  set (features := working_set (loaded now (feature_list w)) (backed_up w)) in *.
  assert (call.1 = Return tt
          ∨ (call.1 = Throw (TypeError "Cannot read properties of null (reading 'id')")
             ∧ feature_list call.2 = feature_list w ∧ JNull ∈ features)
          ∨ (call.1 = Throw (IOError "EACCES: permission denied")
             ∧ writable (feature_list w) = false
             ∧ feature_list call.2 = feature_list w)) as Hcases.
  { destruct (Array_find (has_id featureId) features) as [[[i f]|]|e] eqn:Hfind.
    - pose proof (Array_find_found _ _ _ _ Hfind) as (Hi & m & -> & Hid).
      simpl in Hrun.
      destruct (Array_map _ _) as [toSave|e] eqn:Hmap.
      + unfold Array_map in Hmap. pose proof (length_save_records _ _ _ Hmap) as Hlen.
        unfold save in Hrun. rewrite decide_False in Hrun.
        2:{ rewrite Hlen, length_insert. apply lookup_lt_Some in Hi. lia. }
        unfold writeFile in Hrun. simpl in Hrun.
        rewrite backed_up_feature_list in Hrun.
        destruct (writable (feature_list w)) eqn:Hw; rewrite Hrun; simpl.
        * by left.
        * right; right. by rewrite backed_up_feature_list.
      + unfold Array_map in Hmap. apply Array_map_featureData_throw in Hmap as [-> Hnull].
        rewrite Hrun. right; left. simpl. rewrite backed_up_feature_list.
        split_and!; [done|done|].
        apply elem_of_patched in Hnull as [?|?]; done.
    - rewrite Hrun. by left.
    - unfold Array_find in Hfind. apply Array_find_has_id_throw in Hfind as [-> Hnull].
      rewrite Hrun. right; left. simpl. by rewrite backed_up_feature_list. }
  split_and!.
  - destruct Hcases as [?|[(? & ? & _)|?]]; auto.
  - destruct Hcases as [->|[[-> _]|[-> _]]]; done.
  - intros before Hload Hne Hthrow.
    rewrite loadFeatures_run in Hload. injection Hload as <-.
    destruct Hcases as [Hc|[(_ & _ & Hnull)|[Hc _]]]; [congruence| |congruence].
    subst features. rewrite working_set_keeps in Hnull by done.
    by apply loaded_not_null in Hnull.
Qed.

(** One call that finds its record in the loaded collection: what is
    written, and what the next call will load and find. *)
Lemma updateFeatureStatus_spec now featureId status summary error w i m :
  Array_find (has_id featureId) (loaded now (feature_list w)) = Return (Some (i, JObj m)) →
  writable (feature_list w) = true →
  let r := saved (JObj (apply_status status summary error m)) in
  let records :=
    (JObj ∘ saved) <$> <[i := JObj (apply_status status summary error m)]>
                         (loaded now (feature_list w)) in
  run (updateFeatureStatus now featureId status summary error) w
  = (Return tt, store featuresPath (Doc (JArr records)) (backed_up w))
  ∧ records !! i = Some (JObj r)
  ∧ (∀ j f, j ≠ i → loaded now (feature_list w) !! j = Some f →
       records !! j = Some (JObj (saved f)))
  ∧ length records = length (loaded now (feature_list w))
  ∧ (∀ f, f ∈ records →
       ∃ mf id, f = JObj mf ∧ mf !! "id" = Some id ∧ truthy (Some id) = true)
  ∧ (∀ now' w0, loaded now' (feature_list (store featuresPath (Doc (JArr records)) w0))
               = records)
  ∧ Array_find (has_id featureId) records = Return (Some (i, JObj r)).
Proof.
  intros Hfind Hw r records.
  pose proof (Array_find_found _ _ _ _ Hfind) as (Hi & m0 & [= <-] & Hid).
  set (before := loaded now (feature_list w)) in *.
  set (patched := <[i := JObj (apply_status status summary error m)]> before) in *.
  assert (patched !! i = Some (JObj (apply_status status summary error m))) as Hpi.
  { subst patched. by rewrite list_lookup_insert_eq by (by eapply lookup_lt_Some). }
  assert (∀ j g g', before !! j = Some g → patched !! j = Some g' →
            g' ≠ JNull ∧ props g' "id" = props g "id") as Hids.
  { intros j g g' Hg Hg'. destruct (decide (j = i)) as [->|Hne].
    - rewrite Hpi in Hg'. rewrite Hi in Hg. simplify_eq. split; [done|].
      unfold props. simpl. by rewrite apply_status_other.
    - subst patched. rewrite list_lookup_insert_ne in Hg' by done. simplify_eq.
      split; [|done]. by eapply (loaded_not_null now (feature_list w)), list_elem_of_lookup_2. }
  assert (∀ f, f ∈ patched → truthy (props f "id") = true) as Htruthy.
  { intros f (j & Hj)%list_elem_of_lookup_1.
    destruct (lookup_lt_is_Some_2 before j) as [g Hg].
    { apply lookup_lt_Some in Hj. subst patched. by rewrite length_insert in Hj. }
    destruct (Hids j g f Hg Hj) as [_ ->].
    by eapply (loaded_truthy_id now (feature_list w)), list_elem_of_lookup_2. }
  split_and!.
  - by apply updateFeatureStatus_found.
  - subst records. by rewrite list_lookup_fmap, Hpi.
  - intros j f Hj Hf. subst records patched.
    by rewrite list_lookup_fmap, list_lookup_insert_ne, Hf by done.
  - subst records patched. by rewrite length_fmap, length_insert.
  - intros f (g & -> & Hg)%list_elem_of_fmap. specialize (Htruthy g Hg).
    simpl. destruct (props g "id") as [id|] eqn:Hpid; [|done].
    exists (saved g), id. split_and!; [done| |done].
    by rewrite saved_canonical by apply id_canonical.
  - intros now' w0. by apply reload_saved.
  - destruct (Array_find_same_ids featureId before records i (JObj m))
      as (f' & Hf' & Hfind'); [done| | |].
    + subst records patched. by rewrite length_fmap, length_insert.
    + intros j g g' Hg Hg'. subst records. rewrite list_lookup_fmap in Hg'.
      destruct (patched !! j) as [pj|] eqn:Hpj; simplify_eq/=.
      split; [done|]. destruct (Hids j g pj Hg Hpj) as [_ <-].
      unfold props at 1. simpl. by rewrite saved_canonical by apply id_canonical.
    + subst records. rewrite list_lookup_fmap, Hpi in Hf'. simpl in Hf'. by simplify_eq.
Qed.

Lemma saved_saved f : saved (JObj (saved f)) = saved f.
Proof.
  apply map_eq. intros k. rewrite !saved_lookup. unfold props at 1. simpl.
  rewrite saved_lookup. by case_decide.
Qed.

Lemma status_canonical : "status" ∈ canonical_fields.
Proof. by apply (bool_decide_unpack _); vm_compute. Qed.

Lemma summary_canonical : "summary" ∈ canonical_fields.
Proof. by apply (bool_decide_unpack _); vm_compute. Qed.

Lemma error_canonical : "error" ∈ canonical_fields.
Proof. by apply (bool_decide_unpack _); vm_compute. Qed.

Lemma apply_status_saved_twice status summary error m :
  saved (JObj (apply_status status summary error
                 (saved (JObj (apply_status status summary error m)))))
  = saved (JObj (apply_status status summary error m)).
Proof.
  apply map_eq. intros k. rewrite !saved_lookup. case_decide as Hk; [|done].
  unfold props. simpl.
  destruct (decide (k = "status")) as [->|H1]; [by rewrite !apply_status_status|].
  destruct (decide (k = "error")) as [->|H3]; [by rewrite !apply_status_error|].
  destruct (decide (k = "summary")) as [->|H2].
  - rewrite (apply_status_summary _ _ _ (saved _)).
    rewrite saved_canonical by done. unfold props. simpl.
    rewrite apply_status_summary. destruct summary as [s|]; [|done].
    by destruct (String.eqb s "").
  - rewrite apply_status_other, saved_canonical by done. unfold props. simpl. done.
Qed.

(** ** [updateFeatureStatus]: repeating a call, and what later loads see *)

(** X5.  A call that finds its record in the collection [loadFeatures]
    returns, on a feature list that can be written: repeated with the
    same arguments, at whatever time, it succeeds again and leaves the
    feature list exactly as the first call wrote it. *)
Theorem update_status_twice_is_once
    now now' featureId status summary error w before i m :
  run (loadFeatures now) w = (Return before, w) →
  Array_find (has_id featureId) before = Return (Some (i, JObj m)) →
  writable (feature_list w) = true →
  ∃ w1 w2,
    run (updateFeatureStatus now featureId status summary error) w = (Return tt, w1)
    ∧ run (updateFeatureStatus now' featureId status summary error) w1 = (Return tt, w2)
    ∧ feature_list w2 = feature_list w1.
Proof.
  intros Hload Hfind Hw.
  rewrite loadFeatures_run in Hload. injection Hload as <-.
  destruct (updateFeatureStatus_spec now featureId status summary error w i m Hfind Hw)
    as (Hrun & Hi & Hother & Hlen & _ & Hreload & Hfind1).
  set (r := saved (JObj (apply_status status summary error m))) in *.
  set (records := (JObj ∘ saved) <$> _) in *.
  destruct (updateFeatureStatus_spec now' featureId status summary error
              (store featuresPath (Doc (JArr records)) (backed_up w)) i r)
    as (Hrun2 & _); [by rewrite Hreload|done|].
  eexists _, _. split_and!; [exact Hrun|exact Hrun2|].
  rewrite Hreload. simpl. do 4 f_equal.
  apply list_eq. intros j. rewrite list_lookup_fmap.
  destruct (decide (j = i)) as [->|Hne].
  - rewrite list_lookup_insert_eq by (by eapply lookup_lt_Some). simpl.
    rewrite Hi. do 2 f_equal. subst r. apply apply_status_saved_twice.
  - rewrite list_lookup_insert_ne by done.
    destruct (records !! j) as [g|] eqn:Hg; [|done]. simpl. f_equal.
    subst records. rewrite list_lookup_fmap in Hg.
    destruct (_ !! j) as [g0|]; simplify_eq/=. f_equal. apply saved_saved.
Qed.

Lemma update_status_twice_witness :
  let before := [JObj (work_item "a" "backlog"); JObj (work_item "b" "in_progress")] in
  let w := on_disk (Some (Doc (JArr before))) None in
  ∃ w1 w2,
    run (updateFeatureStatus (clock 0) "b" "error" None (Some "tests failed")) w
    = (Return tt, w1)
    ∧ run (updateFeatureStatus (clock 5) "b" "error" None (Some "tests failed")) w1
      = (Return tt, w2)
    ∧ feature_list w2 = feature_list w1.
Proof.
  intros before w.
  apply (update_status_twice_is_once (clock 0) (clock 5) "b" "error" None
           (Some "tests failed") w before 1 (work_item "b" "in_progress")).
  - vm_compute. reflexivity.
  - vm_compute. reflexivity.
  - reflexivity.
Defined.

(** X6.  A call that finds its record in the collection [loadFeatures]
    returns, on a feature list that can be written, writes every record
    with a truthy id, the ids [loadFeatures] made up included: from then
    on a load returns the records of the file as they are, whatever the
    time. *)
Theorem update_status_persists_ids
    now featureId status summary error w before i m :
  run (loadFeatures now) w = (Return before, w) →
  Array_find (has_id featureId) before = Return (Some (i, JObj m)) →
  writable (feature_list w) = true →
  ∃ w1 records,
    run (updateFeatureStatus now featureId status summary error) w = (Return tt, w1)
    ∧ data (feature_list w1) = Some (Doc (JArr records))
    ∧ (∀ j f, before !! j = Some f →
         ∃ r, records !! j = Some r ∧ get_prop r "id" = get_prop f "id")
    ∧ (∀ r, r ∈ records →
         ∃ id, get_prop r "id" = Return (Some id) ∧ truthy (Some id) = true)
    ∧ ∀ now', run (loadFeatures now') w1 = (Return records, w1).
Proof.
  intros Hload Hfind Hw.
  rewrite loadFeatures_run in Hload. injection Hload as <-.
  destruct (updateFeatureStatus_spec now featureId status summary error w i m Hfind Hw)
    as (Hrun & Hi & Hother & Hlen & Hids & Hreload & _).
  pose proof (Array_find_found _ _ _ _ Hfind) as (Hbi & m0 & [= <-] & Hid).
  eexists _, _. split_and!; [exact Hrun|done| | |].
  - intros j f Hf. destruct (decide (j = i)) as [->|Hne].
    + rewrite Hi. eexists. split; [done|]. rewrite Hbi in Hf. simplify_eq. simpl.
      rewrite saved_canonical by apply id_canonical. unfold props. simpl.
      by rewrite apply_status_other.
    + rewrite (Hother j f Hne Hf). eexists. split; [done|].
      destruct (loaded_object now (feature_list w) f) as (mf & idf & -> & _).
      { by eapply list_elem_of_lookup_2. }
      simpl. by rewrite saved_canonical by apply id_canonical.
  - intros r (mf & id & -> & Hmf & Ht)%Hids. exists id. simpl. by rewrite Hmf.
  - intros now'. rewrite loadFeatures_run. by rewrite Hreload.
Qed.

Lemma update_status_persists_ids_witness :
  let w := on_disk (Some (Doc (JArr [JObj (work_item "a" "backlog");
                                     JObj {[ "status" := JStr "backlog" ]}]))) None in
  ∃ w1 records,
    run (updateFeatureStatus (clock 1700000000000) "a" "verified" None None) w
    = (Return tt, w1)
    ∧ ∀ now', run (loadFeatures now') w1 = (Return records, w1).
Proof.
  intros w.
  destruct (update_status_persists_ids (clock 1700000000000) "a" "verified" None None w
              [JObj (work_item "a" "backlog");
               JObj (<["id" := JStr "feature-1-1700000000000"]>
                       {[ "status" := JStr "backlog" ]})]
              0 (work_item "a" "backlog"))
    as (w1 & records & Hrun & _ & _ & _ & Hload).
  - vm_compute. reflexivity.
  - vm_compute. reflexivity.
  - reflexivity.
  - exists w1, records. split; [exact Hrun|exact Hload].
Defined.

Lemma selectable_saved m : selectable (saved (JObj m)) ↔ selectable m.
Proof. unfold selectable. by rewrite saved_canonical by apply status_canonical. Qed.

Lemma selectable_apply_status status summary error m :
  selectable (saved (JObj (apply_status status summary error m)))
  ↔ status ≠ "verified" ∧ status ≠ "waiting_approval".
Proof.
  rewrite selectable_saved. unfold selectable. rewrite apply_status_status.
  split; intros [H1 H2]; split; congruence.
Qed.

(** X7.  How an update moves the selection.  After a call that finds its
    record at position [i] and a reload, that record can be selected
    exactly when the new status is neither [verified] nor
    [waiting_approval], and every other record can be selected exactly
    when it could before.  So when no other record could be selected, a
    status of [verified] or [waiting_approval] leaves nothing to select;
    and when no earlier record could be selected, any other status (such
    as [error]) makes the updated record the next one selected. *)
Theorem selection_after_update
    now now' featureId status summary error w before i m :
  run (loadFeatures now) w = (Return before, w) →
  Array_find (has_id featureId) before = Return (Some (i, JObj m)) →
  writable (feature_list w) = true →
  ∃ w1 after,
    run (updateFeatureStatus now featureId status summary error) w = (Return tt, w1)
    ∧ run (loadFeatures now') w1 = (Return (JObj <$> after), w1)
    ∧ length after = length before
    ∧ (∀ mi, after !! i = Some mi →
         selectable mi ↔ status ≠ "verified" ∧ status ≠ "waiting_approval")
    ∧ (∀ j mj mj', j ≠ i → before !! j = Some (JObj mj) → after !! j = Some mj' →
         selectable mj' ↔ selectable mj)
    ∧ (status = "verified" ∨ status = "waiting_approval" →
       (∀ j mj, j ≠ i → before !! j = Some (JObj mj) → ¬ selectable mj) →
       selectNextFeature (JObj <$> after) = Return None)
    ∧ (status ≠ "verified" → status ≠ "waiting_approval" →
       (∀ j mj, j < i → before !! j = Some (JObj mj) → ¬ selectable mj) →
       selectNextFeature (JObj <$> after) = Return (JObj <$> after !! i)).
Proof.
  intros Hload Hfind Hw.
  rewrite loadFeatures_run in Hload. injection Hload as <-.
  destruct (updateFeatureStatus_spec now featureId status summary error w i m Hfind Hw)
    as (Hrun & Hi & Hother & Hlen & _ & Hreload & _).
  pose proof (Array_find_found _ _ _ _ Hfind) as (Hbi & _).
  set (before := loaded now (feature_list w)) in *.
  set (patched := <[i := JObj (apply_status status summary error m)]> before) in *.
  set (after := saved <$> patched).
  assert ((JObj ∘ saved) <$> patched = JObj <$> after) as Hafter.
  { subst after. by rewrite <-list_fmap_compose. }
  rewrite Hafter in *.
  assert (after !! i = Some (saved (JObj (apply_status status summary error m)))) as Hai.
  { rewrite list_lookup_fmap in Hi. destruct (after !! i); by simplify_eq/=. }
  assert (∀ j mj, j ≠ i → before !! j = Some (JObj mj) →
            after !! j = Some (saved (JObj mj))) as Haj.
  { intros j mj Hne Hj. specialize (Hother j _ Hne Hj).
    rewrite list_lookup_fmap in Hother. destruct (after !! j); by simplify_eq/=. }
  assert (∀ j, (j < length before)%nat → ∃ mj, before !! j = Some (JObj mj)) as Hobj.
  { intros j Hj. destruct (lookup_lt_is_Some_2 before j Hj) as [f Hf].
    destruct (loaded_object now (feature_list w) f) as (mf & ? & -> & _);
      [by eapply list_elem_of_lookup_2|by eexists]. }
  assert (length after = length before) as Hlen'.
  { by rewrite length_fmap in Hlen. }
  exists (store featuresPath (Doc (JArr (JObj <$> after))) (backed_up w)), after.
  split_and!; [exact Hrun| |done| | | |].
  - rewrite loadFeatures_run. by rewrite Hreload.
  - intros mi Hmi. rewrite Hai in Hmi. injection Hmi as <-.
    apply selectable_apply_status.
  - intros j mj mj' Hne Hj Hj'. rewrite (Haj j mj Hne Hj) in Hj'. injection Hj' as <-.
    apply selectable_saved.
  - intros Hst Hnone. unfold selectNextFeature, Array_find.
    rewrite Array_find_from_all_false; [done|].
    intros f (mf & -> & (j & Hj)%list_elem_of_lookup_1)%list_elem_of_fmap.
    apply eligible_false. destruct (decide (j = i)) as [->|Hne].
    + rewrite Hai in Hj. injection Hj as <-. rewrite selectable_apply_status.
      intros [? ?]. by destruct Hst.
    + destruct (Hobj j) as [mj Hmj]; [rewrite <-Hlen'; by eapply lookup_lt_Some|].
      rewrite (Haj j mj Hne Hmj) in Hj. injection Hj as <-.
      rewrite selectable_saved. by eapply Hnone.
  - intros H1 H2 Hearlier. unfold selectNextFeature, Array_find.
    rewrite Hai. simpl.
    rewrite (Array_find_from_first eligible 0 (JObj <$> after) i
               (JObj (saved (JObj (apply_status status summary error m))))); [done| | |].
    + by rewrite list_lookup_fmap, Hai.
    + apply eligible_true. by apply selectable_apply_status.
    + intros j g Hj Hg. rewrite list_lookup_fmap in Hg.
      destruct (Hobj j) as [mj Hmj]; [apply lookup_lt_Some in Hbi; lia|].
      rewrite (Haj j mj) in Hg by (done || lia). simpl in Hg. injection Hg as <-.
      apply eligible_false. rewrite selectable_saved. by eapply Hearlier.
Qed.

Lemma selection_after_update_witness :
  let before := [JObj (work_item "a" "verified"); JObj (work_item "b" "in_progress")] in
  let w := on_disk (Some (Doc (JArr before))) None in
  ∃ w1 after,
    run (updateFeatureStatus (clock 0) "b" "waiting_approval" None None) w = (Return tt, w1)
    ∧ run (loadFeatures (clock 1)) w1 = (Return (JObj <$> after), w1)
    ∧ selectNextFeature (JObj <$> after) = Return None.
Proof.
  intros before w.
  destruct (selection_after_update (clock 0) (clock 1) "b" "waiting_approval" None None
              w before 1 (work_item "b" "in_progress"))
    as (w1 & after & Hrun & Hload & _ & _ & _ & Hnone & _).
  - vm_compute. reflexivity.
  - vm_compute. reflexivity.
  - reflexivity.
  - exists w1, after. split; [exact Hrun|]. split; [exact Hload|].
    apply Hnone; [right; reflexivity|].
    intros j mj Hne Hj [Hv _].
    destruct j as [|[|j]]; [|exfalso; apply Hne; reflexivity|discriminate Hj].
    injection Hj as <-. apply Hv. vm_compute. reflexivity.
Defined.

(** ** [updateFeatureStatus]: the recovery that does happen *)

(** X8.  When the feature list cannot be read, nothing is copied over the
    backup, and a backup that holds an array of records, one of them
    with the given id, is what the update is applied to: the call
    returns after writing the backup's records, patched and projected,
    as the new feature list; the backup itself stays as it was.  The
    records come from the backup as they are: no id is made up for a
    record that has none. *)
Theorem update_status_recovers_unreadable_list
    now featureId status summary error w (records : list json) i m :
  data (feature_list w) = None →
  data (feature_list_backup w) = Some (Doc (JArr records)) →
  (∀ f, f ∈ records → f ≠ JNull) →
  Array_find (has_id featureId) records = Return (Some (i, JObj m)) →
  writable (feature_list w) = true →
  ∃ w1 written,
    run (updateFeatureStatus now featureId status summary error) w = (Return tt, w1)
    ∧ data (feature_list w1) = Some (Doc (JArr written))
    ∧ feature_list_backup w1 = feature_list_backup w
    ∧ length written = length records
    ∧ (∃ mi, written !! i = Some (JObj mi)
         ∧ mi !! "id" = Some (JStr featureId)
         ∧ mi !! "status" = Some (JStr status))
    ∧ (∀ j f, j ≠ i → records !! j = Some f →
         ∃ mj, written !! j = Some (JObj mj)
           ∧ ∀ k, mj !! k = if decide (k ∈ canonical_fields) then props f k else None).
Proof.
  intros Hdata Hbackup Hnn Hfind Hw.
  pose proof (Array_find_found _ _ _ _ Hfind) as (Hi & m0 & [= <-] & Hid).
  assert (backed_up w = w) as Hbw by (unfold backed_up; by rewrite Hdata).
  assert (loaded now (feature_list w) = []) as Hl by (unfold loaded; by rewrite Hdata).
  assert (working_set [] w = records) as Hws.
  { unfold working_set. rewrite Hbackup. destruct records; [done|done]. }
  destruct (save_patched records i (JObj (apply_status status summary error m)))
    as (toSave & HtoSave & Hstr); [done|done|].
  eexists _, ((JObj ∘ saved) <$> <[i := JObj (apply_status status summary error m)]> records).
  split_and!.
  - rewrite updateFeatureStatus_run. cbv zeta. rewrite Hbw, Hl, Hws, Hfind. simpl.
    rewrite HtoSave. unfold save. rewrite decide_False.
    + unfold writeFile. simpl. by rewrite Hw, Hstr.
    + intros Hnil. apply length_zero_iff_nil in Hnil. subst toSave.
      unfold JSON_stringify in Hstr. injection Hstr as Hstr.
      apply (f_equal length) in Hstr.
      rewrite length_fmap, length_insert in Hstr. simpl in Hstr.
      apply lookup_lt_Some in Hi. lia.
  - done.
  - done.
  - by rewrite length_fmap, length_insert.
  - eexists. rewrite list_lookup_fmap, list_lookup_insert_eq by (by eapply lookup_lt_Some).
    split_and!; [done| |].
    + rewrite saved_canonical by apply id_canonical. unfold props. simpl.
      by rewrite apply_status_other.
    + rewrite saved_canonical by apply status_canonical. unfold props. simpl.
      apply apply_status_status.
  - intros j f Hne Hf. eexists.
    rewrite list_lookup_fmap, list_lookup_insert_ne, Hf by done.
    split; [done|]. intros k. apply saved_lookup.
Qed.

Lemma update_status_recovers_witness :
  let records := [JObj (work_item "a" "backlog"); JObj (work_item "b" "backlog")] in
  let w := on_disk None (Some (Doc (JArr records))) in
  ∃ w1 written,
    run (updateFeatureStatus (clock 0) "b" "in_progress" None None) w = (Return tt, w1)
    ∧ data (feature_list w1) = Some (Doc (JArr written))
    ∧ length written = 2.
Proof.
  intros records w.
  destruct (update_status_recovers_unreadable_list (clock 0) "b" "in_progress" None None
              w records 1 (work_item "b" "backlog"))
    as (w1 & written & Hrun & Hdata & _ & Hlen & _).
  - reflexivity.
  - reflexivity.
  - intros f Hf ->. vm_compute in Hf.
    inversion Hf as [|? ? ? Hf1]; subst. inversion Hf1 as [|? ? ? Hf2]; subst.
    inversion Hf2.
  - vm_compute. reflexivity.
  - reflexivity.
  - exists w1, written. split; [exact Hrun|]. split; [exact Hdata|exact Hlen].
Defined.

(** ** [updateFeatureWorktree]: what it leaves alone *)

Lemma Array_find_has_id_total featureId i (l : list json) :
  (∀ f, f ∈ l → f ≠ JNull) →
  ∃ found, Array_find_from (has_id featureId) i l = Return found.
Proof.
  revert i. induction l as [|f l IH]; intros i Hnn; simpl; [by eexists|].
  rewrite has_id_props by (apply Hnn; by left). simpl.
  destruct (strict_eq_str _ _); [by eexists|].
  apply IH. intros g Hg. apply Hnn. by right.
Qed.

(** X10.  [updateFeatureWorktree] never reads or writes the backup and never
    throws on what the file holds: a call returns, or fails with the
    error of the write to a feature list that cannot be written, and then
    changes nothing.  It writes at most once, to the feature list. *)
Theorem update_worktree_effects now featureId worktreePath branchName w :
  let call := run (updateFeatureWorktree now featureId worktreePath branchName) w in
  feature_list_backup call.2 = feature_list_backup w
  ∧ (call.1 = Return tt
     ∨ (call.1 = Throw (IOError "EACCES: permission denied")
        ∧ writable (feature_list w) = false ∧ call.2 = w))
  ∧ (call.2 = w
     ∨ ∃ records, records ≠ []
         ∧ call.2 = store featuresPath (Doc (JArr records)) w).
Proof.
  intros call.
  assert (Hrun := updateFeatureWorktree_run now featureId worktreePath branchName w).
  cbv zeta in Hrun. fold call in Hrun.
  destruct (decide (length (loaded now (feature_list w)) = 0)) as [Hz|Hnz].
  { rewrite Hrun. split_and!; [done|by left|by left]. }
  destruct (Array_find_has_id_total featureId 0 (loaded now (feature_list w)))
    as [found Hfound]; [by intros f ?%loaded_not_null|].
  unfold Array_find in Hrun. rewrite Hfound in Hrun.
  destruct found as [[i f]|]; [|rewrite Hrun; split_and!; [done|by left|by left]].
  pose proof (Array_find_found featureId _ i f Hfound) as (Hi & m & -> & Hid).
  simpl in Hrun.
  destruct (save_patched (loaded now (feature_list w)) i
              (JObj (apply_worktree worktreePath branchName m))) as (toSave & HtoSave & Hstr);
    [by intros f ?%loaded_not_null|done|].
  unfold Array_map in HtoSave, Hrun. rewrite HtoSave in Hrun.
  unfold writeFile in Hrun. simpl in Hrun.
  destruct (writable (feature_list w)) eqn:Hw; rewrite Hrun; simpl.
  - split_and!; [done|by left|]. right. eexists. split; [|by rewrite Hstr].
    intros Hnil%(f_equal length). rewrite length_fmap, length_insert in Hnil.
    simpl in Hnil. lia.
  - split_and!; [done|by right|by left].
Qed.

(** X11.  Without a loaded record of the given id (an empty or unloadable
    feature list included), [updateFeatureWorktree] returns and changes
    nothing at all; unlike [updateFeatureStatus] it does not turn to the
    backup, whatever the backup holds. *)
Theorem update_worktree_not_found_changes_nothing
    now featureId worktreePath branchName w before :
  run (loadFeatures now) w = (Return before, w) →
  (∀ f, f ∈ before → get_prop f "id" ≠ Return (Some (JStr featureId))) →
  run (updateFeatureWorktree now featureId worktreePath branchName) w = (Return tt, w).
Proof.
  intros Hload Hnone.
  rewrite loadFeatures_run in Hload. injection Hload as <-.
  rewrite updateFeatureWorktree_run. cbv zeta. case_decide; [done|].
  rewrite Array_find_no_match; [done|].
  intros f Hf. split; [by eapply loaded_not_null|].
  intros Hid. apply (Hnone f Hf). rewrite get_prop_props by (by eapply loaded_not_null).
  by rewrite Hid.
Qed.

Lemma update_worktree_not_found_witness :
  let w := on_disk (Some (Doc (JArr [JNull])))
                   (Some (Doc (JArr [JObj (work_item "a" "backlog")]))) in
  run (updateFeatureWorktree (clock 0) "a" (Some "/tmp/wt-a") (Some "feature/a")) w
  = (Return tt, w).
Proof.
  intros w.
  apply (update_worktree_not_found_changes_nothing (clock 0) "a"
           (Some "/tmp/wt-a") (Some "feature/a") w []).
  - reflexivity.
  - intros f Hf. inversion Hf.
Defined.

(** X12.  Setting or clearing the worktree of a record touches nothing else
    that is saved: after the call and a reload, the record's status,
    summary, error and every other canonical field are as loaded before,
    and so are the canonical fields of every other record; fields outside
    the canonical ones are gone, as after any save. *)
Theorem update_worktree_keeps_other_fields
    now now' featureId worktreePath branchName w before i m :
  run (loadFeatures now) w = (Return before, w) →
  Array_find (has_id featureId) before = Return (Some (i, JObj m)) →
  writable (feature_list w) = true →
  ∃ w1 after,
    run (updateFeatureWorktree now featureId worktreePath branchName) w = (Return tt, w1)
    ∧ run (loadFeatures now') w1 = (Return after, w1)
    ∧ length after = length before
    ∧ (∃ mi, after !! i = Some (JObj mi)
         ∧ ∀ k, k ≠ "worktreePath" → k ≠ "branchName" →
             mi !! k = if decide (k ∈ canonical_fields) then m !! k else None)
    ∧ (∀ j mj, j ≠ i → before !! j = Some (JObj mj) →
         ∃ mj', after !! j = Some (JObj mj')
           ∧ ∀ k, mj' !! k = if decide (k ∈ canonical_fields) then mj !! k else None).
Proof.
  intros Hload Hfind Hw.
  rewrite loadFeatures_run in Hload. injection Hload as <-.
  pose proof (Array_find_found _ _ _ _ Hfind) as (Hi & m0 & [= <-] & Hid).
  set (before := loaded now (feature_list w)) in *.
  set (patched := <[i := JObj (apply_worktree worktreePath branchName m)]> before).
  assert (∀ f, f ∈ patched → truthy (props f "id") = true) as Htruthy.
  { intros f [->|Hf]%elem_of_patched; [|by eapply loaded_truthy_id].
    unfold props. simpl. rewrite apply_worktree_other by done.
    by apply (loaded_truthy_id now (feature_list w) (JObj m)), list_elem_of_lookup_2 with i. }
  eexists _, ((JObj ∘ saved) <$> patched). split_and!.
  - by apply updateFeatureWorktree_found.
  - rewrite loadFeatures_run. by rewrite reload_saved.
  - subst patched. by rewrite length_fmap, length_insert.
  - exists (saved (JObj (apply_worktree worktreePath branchName m))). split.
    + rewrite list_lookup_fmap. subst patched.
      by rewrite list_lookup_insert_eq by (by eapply lookup_lt_Some).
    + intros k H1 H2. rewrite saved_lookup. unfold props. simpl.
      by rewrite apply_worktree_other.
  - intros j mj Hji Hj. exists (saved (JObj mj)). split.
    + rewrite list_lookup_fmap. subst patched.
      by rewrite list_lookup_insert_ne, Hj by done.
    + intros k. by rewrite saved_lookup.
Qed.

Lemma update_worktree_keeps_other_fields_witness :
  let before := [JObj (work_item "a" "backlog"); JObj (work_item "b" "in_progress")] in
  let w := on_disk (Some (Doc (JArr before))) None in
  ∃ w1 after mi,
    run (updateFeatureWorktree (clock 0) "b" (Some "/tmp/wt-b") (Some "feature/b")) w
    = (Return tt, w1)
    ∧ run (loadFeatures (clock 1)) w1 = (Return after, w1)
    ∧ after !! 1 = Some (JObj mi)
    ∧ mi !! "status" = Some (JStr "in_progress").
Proof.
  intros before w.
  destruct (update_worktree_keeps_other_fields (clock 0) (clock 1) "b"
              (Some "/tmp/wt-b") (Some "feature/b") w before 1 (work_item "b" "in_progress"))
    as (w1 & after & Hrun & Hload & _ & (mi & Hmi & Hk) & _).
  - vm_compute. reflexivity.
  - vm_compute. reflexivity.
  - reflexivity.
  - exists w1, after, mi. split; [exact Hrun|]. split; [exact Hload|].
    split; [exact Hmi|]. rewrite Hk; [|discriminate|discriminate].
    vm_compute. reflexivity.
Defined.

(** ** [spawnJSONLProcess]: the end of the stream *)

Section StreamEnd.

Variable JSON_parse_line : string → option json.

(** One record per line that is not blank, and none for the others. *)
Lemma length_read_lines lines :
  length (read_lines JSON_parse_line lines)
  = length (filter (λ line, is_blank line = false) lines).
Proof.
  induction lines as [|line lines IH]; [done|].
  rewrite read_lines_cons, length_app, IH, filter_cons. unfold on_line.
  case_decide as Hb.
  - rewrite Hb. by destruct (JSON_parse_line line).
  - apply not_false_is_true in Hb. by rewrite Hb.
Qed.

(** X13.  A child whose [exit], with a numeric code other than 0, is
    delivered after stdout has ended, after any number of lines: the
    stream is the records of the lines, one per line that is not blank,
    followed by exactly one record [{ type: "error", error: msg }], where
    [msg] is the stderr text gathered up to the exit or, when that is
    empty, [Process exited with code <code>]; the stream has then ended,
    whatever happens afterwards. *)
Theorem failed_exit_appends_one_error (pre mid post : list stream_event) (c : Z) :
  forallb in_the_loop pre = true →
  forallb is_stderr mid = true →
  c ≠ 0%Z →
  let stderrOutput := stderr_in pre +:+ stderr_in mid in
  let result :=
    spawnJSONLProcess JSON_parse_line
      (pre ++ StdoutClosed :: mid ++ ChildExited (Some c) :: post) in
  result
  = ((read_lines JSON_parse_line (lines_of pre)
      ++ [JObj {[ "type" := JStr "error";
                  "error" := JStr (if String.eqb stderrOutput ""
                                   then "Process exited with code " +:+ pretty c
                                   else stderrOutput) ]}])%list,
     Finished)
  ∧ length result.1
    = S (length (filter (λ line, is_blank line = false) (lines_of pre))).
Proof.
  intros Hpre Hmid Hc stderrOutput result. subst result.
  rewrite (exit_after_stdout_end _ _ _ _ _ Hpre Hmid), (on_exit_failed _ _ Hc).
  split; [done|]. simpl.
  rewrite length_app, length_read_lines. simpl. lia.
Qed.

(** X14.  A read error on stdout ends the stream as a failure with that
    error, after the records of the lines read before it; whatever the
    child does before or afterwards (stderr text, an exit with whatever
    code), no [error] record is yielded for it. *)
Theorem read_error_ends_the_stream (pre post : list stream_event) (e : exn) :
  forallb in_the_loop pre = true →
  spawnJSONLProcess JSON_parse_line (pre ++ StdoutFailed e :: post)
  = (read_lines JSON_parse_line (lines_of pre), Failed e).
Proof.
  intros Hpre. unfold spawnJSONLProcess.
  rewrite (run_one_more _ _ _ _ _ (run_in_the_loop _ _ _ _ Hpre)).
  by rewrite (run_ended _ post _ (Failed e)).
Qed.

(** X17.  An [exit] of the child that is delivered while stdout is still
    being read finds no listener (the listener is installed at line 128,
    after the loop): whatever its code, no [error] record is yielded for
    it, and when stdout has ended the stream stays open, waiting for an
    [exit] that does not come again. *)
Theorem exit_before_stdout_end_is_lost
    (pre1 pre2 post : list stream_event) (code : option Z) :
  forallb in_the_loop pre1 = true →
  forallb in_the_loop pre2 = true →
  forallb is_stderr post = true →
  spawnJSONLProcess JSON_parse_line (pre1 ++ ChildExited code :: pre2 ++ StdoutClosed :: post)
  = (read_lines JSON_parse_line (lines_of pre1 ++ lines_of pre2), Pending).
Proof.
  intros Hpre1 Hpre2 Hpost. unfold spawnJSONLProcess.
  assert (forallb in_the_loop (pre1 ++ ChildExited code :: pre2) = true) as Hpre.
  { apply in_the_loop_app. split; [done|]. simpl. exact Hpre2. }
  replace (pre1 ++ ChildExited code :: pre2 ++ StdoutClosed :: post)%list
    with ((pre1 ++ ChildExited code :: pre2) ++ StdoutClosed :: post)%list
    by (by rewrite <- app_assoc).
  rewrite (run_to_waiting _ _ _ Hpre Hpost). simpl.
  by rewrite lines_of_app.
Qed.

(** X18.  An [error] of the child (it could not be started, or not be
    killed).  While stdout is still being read nothing listens to it: it
    is an unhandled [error] event, and the stream yields nothing more.
    When stdout has ended, or when there is no stdout to read, the
    listener of line 133 turns it into a [null] exit code: the stream
    ends normally, with no [error] record for it. *)
Theorem child_error_is_never_reported (pre mid post : list stream_event) (e : exn) :
  forallb in_the_loop pre = true →
  forallb is_stderr mid = true →
  spawnJSONLProcess JSON_parse_line (pre ++ ChildFailed e :: post)
  = (read_lines JSON_parse_line (lines_of pre), Unhandled e)
  ∧ spawnJSONLProcess JSON_parse_line (pre ++ StdoutClosed :: mid ++ ChildFailed e :: post)
    = (read_lines JSON_parse_line (lines_of pre), Finished).
Proof.
  intros Hpre Hmid. unfold spawnJSONLProcess. split.
  - rewrite (run_one_more _ _ _ _ _ (run_in_the_loop _ _ _ _ Hpre)).
    by rewrite (run_ended _ post _ (Unhandled e)).
  - rewrite app_comm_cons, app_assoc.
    rewrite (run_one_more _ _ _ _ _ (run_to_waiting _ _ _ Hpre Hmid)).
    rewrite (run_ended _ post _ Finished) by done.
    simpl. by rewrite app_nil_r.
Qed.

End StreamEnd.

Lemma failed_exit_appends_one_error_witness :
  spawnJSONLProcess JsonText.parse
    [StdoutLine line_a; StderrText "fatal: "; StdoutLine ""; StdoutLine "NOT JSON";
     StdoutClosed; StderrText "tool crashed"; ChildExited (Some 3%Z); StderrText "late"]
  = ([JObj {[ "a" := JNum 1 ]};
      JObj {[ "type" := JStr "error"; "error" := JStr "Failed to parse output: NOT JSON" ]};
      JObj {[ "type" := JStr "error"; "error" := JStr "fatal: tool crashed" ]}], Finished).
Proof.
  apply (failed_exit_appends_one_error JsonText.parse
           [StdoutLine line_a; StderrText "fatal: "; StdoutLine ""; StdoutLine "NOT JSON"]
           [StderrText "tool crashed"] [StderrText "late"] 3%Z);
    [reflexivity|reflexivity|discriminate].
Defined.

Lemma read_error_ends_the_stream_witness :
  spawnJSONLProcess JsonText.parse
    [StdoutLine line_b; StderrText "boom"; StdoutFailed (Error "EPIPE");
     ChildExited (Some 1%Z)]
  = ([JObj {[ "b" := JNum 2 ]}], Failed (Error "EPIPE")).
Proof.
  apply (read_error_ends_the_stream JsonText.parse
           [StdoutLine line_b; StderrText "boom"] [ChildExited (Some 1%Z)] (Error "EPIPE")).
  reflexivity.
Defined.

Lemma exit_before_stdout_end_is_lost_witness :
  spawnJSONLProcess JsonText.parse
    [StderrText "boom"; ChildExited (Some 2%Z); StdoutLine line_a; StdoutClosed]
  = ([JObj {[ "a" := JNum 1 ]}], Pending).
Proof.
  apply (exit_before_stdout_end_is_lost JsonText.parse
           [StderrText "boom"] [StdoutLine line_a] [] (Some 2%Z));
    reflexivity.
Defined.

Lemma child_error_is_never_reported_witness :
  spawnJSONLProcess JsonText.parse [ChildFailed (Error "spawn ENOENT"); StdoutClosed]
  = ([], Unhandled (Error "spawn ENOENT"))
  ∧ spawnJSONLProcess JsonText.parse [StdoutClosed; ChildFailed (Error "spawn EMFILE")]
    = ([], Finished).
Proof.
  split.
  - apply (child_error_is_never_reported JsonText.parse [] [] [StdoutClosed]
             (Error "spawn ENOENT")); reflexivity.
  - apply (child_error_is_never_reported JsonText.parse [] [] []
             (Error "spawn EMFILE")); reflexivity.
Defined.

(** ** [spawnProcess] *)

Lemma collect_pending hasAbortController (pre : list event) out err :
  Forall (λ ev, settling hasAbortController ev = false) pre →
  foldl (on_event hasAbortController) (Collector out err None) pre
  = Collector (out +:+ stdout_text pre) (err +:+ stderr_text pre) None.
Proof.
  intros Hpre. revert out err.
  induction Hpre as [|ev pre Hev _ IH]; intros out err; simpl.
  - by rewrite !append_nil_r.
  - destruct ev as [chunk|chunk| |code|e]; simpl in *; try done.
    + by rewrite IH, append_assoc.
    + by rewrite IH, append_assoc.
    + destruct hasAbortController; [done|apply IH].
Qed.

Lemma collect_settled hasAbortController (post : list event) st s :
  promise st = Some s →
  promise (foldl (on_event hasAbortController) st post) = Some s.
Proof.
  revert st. induction post as [|ev post IH]; intros st Hst; [done|].
  simpl. apply IH.
  destruct ev as [chunk|chunk| |code|e]; simpl; try done;
    unfold settle; try destruct hasAbortController; by rewrite ?Hst.
Qed.

(** X15.  The promise of [spawnProcess] is settled by the first event that can
    settle it.  When that is the exit of the child, the promise resolves,
    whatever the exit code, with the code and with exactly the text that
    arrived on stdout and on stderr before the exit, in order of arrival;
    nothing that comes after the exit (late output, an abort, an error)
    changes the result. *)
Theorem spawn_process_resolves_on_exit
    hasAbortController (pre post : list event) (code : option Z) :
  Forall (λ ev, settling hasAbortController ev = false) pre →
  spawnProcess hasAbortController (pre ++ Exit code :: post)
  = Some (Resolved (Result (stdout_text pre) (stderr_text pre) code)).
Proof.
  intros Hpre. unfold spawnProcess. rewrite foldl_app, collect_pending by done.
  simpl. by apply collect_settled.
Qed.

Lemma spawn_process_resolves_on_exit_witness :
  spawnProcess true
    ([StdoutData "hello "; StderrData "warn"; StdoutData "world"]
     ++ Exit (Some 2%Z) :: [StdoutData " (late)"; Abort])
  = Some (Resolved (Result "hello world" "warn" (Some 2%Z))).
Proof.
  apply (spawn_process_resolves_on_exit true
           [StdoutData "hello "; StderrData "warn"; StdoutData "world"]
           [StdoutData " (late)"; Abort] (Some 2%Z)).
  repeat constructor.
Defined.

(** X16.  The promise is rejected only by an abort or by an error of the
    child, and only when that comes first: an abort, when an
    [abortController] was given, rejects with [Process aborted] even if
    the child exits afterwards; without an [abortController] an abort
    does nothing; an error of the child rejects with that error.  Until
    one of these events or the exit arrives, the promise stays pending. *)
Theorem spawn_process_rejections
    hasAbortController (pre post : list event) :
  Forall (λ ev, settling hasAbortController ev = false) pre →
  (hasAbortController = true →
   spawnProcess hasAbortController (pre ++ Abort :: post)
   = Some (Rejected (Error "Process aborted")))
  ∧ (hasAbortController = false →
     spawnProcess hasAbortController (pre ++ Abort :: post)
     = spawnProcess hasAbortController (pre ++ post))
  ∧ (∀ e, spawnProcess hasAbortController (pre ++ ProcessError e :: post)
          = Some (Rejected e))
  ∧ spawnProcess hasAbortController pre = None.
Proof.
  intros Hpre. unfold spawnProcess. split_and!.
  - intros ->. rewrite foldl_app, collect_pending by done. simpl.
    by apply collect_settled.
  - intros ->. by rewrite !foldl_app.
  - intros e. rewrite foldl_app, collect_pending by done. simpl.
    by apply collect_settled.
  - by rewrite collect_pending.
Qed.

Lemma spawn_process_rejections_witness :
  spawnProcess true ([StdoutData "partial"] ++ Abort :: [Exit (Some 0%Z)])
  = Some (Rejected (Error "Process aborted"))
  ∧ spawnProcess false ([StdoutData "partial"] ++ Abort :: [Exit (Some 0%Z)])
    = Some (Resolved (Result "partial" "" (Some 0%Z))).
Proof.
  split.
  - destruct (spawn_process_rejections true [StdoutData "partial"] [Exit (Some 0%Z)])
      as (Habort & _); [repeat constructor|].
    exact (Habort eq_refl).
  - destruct (spawn_process_rejections false [StdoutData "partial"] [Exit (Some 0%Z)])
      as (_ & Hignored & _); [repeat constructor|].
    etransitivity; [exact (Hignored eq_refl)|reflexivity].
Defined.

(** ** [updateFeatureStatus]: an id nobody has *)

(** X9.  When [loadFeatures] returns records and none of them has the given
    id, the call returns without an error and without writing the
    feature list: the file is as before, and the only write there can be
    is the copy to the backup. *)
Theorem update_status_unknown_id_is_noop
    now featureId status summary error w before :
  run (loadFeatures now) w = (Return before, w) →
  before ≠ [] →
  (∀ f, f ∈ before → get_prop f "id" ≠ Return (Some (JStr featureId))) →
  ∃ w',
    run (updateFeatureStatus now featureId status summary error) w = (Return tt, w')
    ∧ feature_list w' = feature_list w
    ∧ writes w' = (writes w ++ backup_writes w)%list.
Proof.
  intros Hload Hne Hnone.
  rewrite loadFeatures_run in Hload. injection Hload as <-.
  exists (backed_up w). apply updateFeatureStatus_not_found.
  rewrite working_set_keeps by done. apply Array_find_no_match.
  intros f Hf. split; [by eapply loaded_not_null|].
  intros Hid. apply (Hnone f Hf). rewrite get_prop_props by (by eapply loaded_not_null).
  by rewrite Hid.
Qed.

Lemma update_status_unknown_id_witness :
  let before := [JObj (work_item "a" "backlog")] in
  let w := on_disk (Some (Doc (JArr before))) None in
  ∃ w',
    run (updateFeatureStatus (clock 0) "zzz" "verified" None None) w = (Return tt, w')
    ∧ feature_list w' = feature_list w.
Proof.
  intros before w.
  destruct (update_status_unknown_id_is_noop (clock 0) "zzz" "verified" None None w before)
    as (w' & Hrun & Hsame & _).
  - vm_compute. reflexivity.
  - discriminate.
  - intros f Hf. vm_compute in Hf. inversion Hf as [|? ? ? Hf1]; subst.
    + vm_compute. discriminate.
    + inversion Hf1.
  - exists w'. split; [exact Hrun|exact Hsame].
Defined.

Lemma update_status_failures_witness :
  let w := World (File (Some (Doc (JArr [JObj (work_item "a" "backlog")]))) false)
                 (File None true) [] in
  (run (updateFeatureStatus (clock 0) "a" "verified" None None) w).1
  = Throw (IOError "EACCES: permission denied").
Proof.
  intros w.
  destruct (proj1 (update_status_failures (clock 0) "a" "verified" None None w))
    as [Hret|[[Hte _]|[Hio _]]].
  - vm_compute in Hret. discriminate Hret.
  - vm_compute in Hte. discriminate Hte.
  - exact Hio.
Defined.

Lemma update_worktree_effects_witness :
  let w := World (File (Some (Doc (JArr [JObj (work_item "a" "backlog")]))) false)
                 (File None true) [] in
  run (updateFeatureWorktree (clock 0) "a" (Some "/tmp/wt-a") (Some "feature/a")) w
  = (Throw (IOError "EACCES: permission denied"), w).
Proof.
  intros w.
  destruct (update_worktree_effects (clock 0) "a" (Some "/tmp/wt-a") (Some "feature/a") w)
    as (_ & [Hret|(Hio & _ & Hw)] & _).
  - vm_compute in Hret. discriminate Hret.
  - etransitivity; [apply surjective_pairing|]. f_equal; assumption.
Defined.
